(** * twx-cli: the signed, rate-limit-aware X API client

    A shallow embedding of [src/client/index.ts] (request executor, backoff
    computation, response normalizer), of the resource methods of the
    client class (posts, users, timeline, search, likes, retweets, follows)
    and of [src/config.ts] (credential loading).

    Conventions of the embedding:
    - a JavaScript string is a [string]; one character stands for one code
      unit of the JavaScript string;
    - a JavaScript number that the client computes with (retry counter,
      epoch instants, page sizes) is an integer of [Z], exact on the range
      of safe integers; an HTTP status is an [N];
    - [undefined] is [None] in an [option]; a thrown exception is the
      [Throw] constructor of [completion];
    - the platform (network, clock, nonce source, JSON built-ins, the
      oauth-1.0a library) is a parameter of the sections that use it. *)

From Stdlib Require Import ZArith String Ascii List Bool Lia.
From stdpp Require Import base option list gmap strings pretty.
From Equations.Prop Require Import Equations Logic.

#[local] Set Warnings "-register-all".
Local Open Scope string_scope.
Local Open Scope Z_scope.
Local Open Scope list_scope.

(** ** JavaScript basics *)

Module JS.

(** Outcome of evaluating a call: a value, or a thrown exception. *)
Inductive exn : Type :=
| Error (message : string)
| TypeError (message : string)
| NetworkError (message : string).

Inductive completion (A : Type) : Type :=
| Return (a : A)
| Throw (e : exn).
Arguments Return {A} a.
Arguments Throw {A} e.

Definition is_throw {A} (c : completion A) : bool :=
  match c with Throw _ => true | Return _ => false end.

(** Values produced by [JSON.parse]. A number [JNumber m e] stands for
    [m * 10^e]; it is zero exactly when [m = 0]. An object keeps its
    members in insertion order, each name once. *)
Inductive JSON : Type :=
| JNull
| JBool (b : bool)
| JNumber (m e : Z)
| JString (s : string)
| JArray (items : list JSON)
| JObject (members : list (string * JSON)).

Fixpoint assoc {A} (k : string) (l : list (string * A)) : option A :=
  match l with
  | [] => None
  | (k', v) :: l' => if String.eqb k k' then Some v else assoc k l'
  end.

(** [v.k] for a value [v] that is neither [null] nor [undefined], for the
    member names this client reads ([data], [meta], [detail], [title],
    [deleted], [liked], [retweeted], [following], [next_token]): only an
    object has such a member. *)
Definition get (v : JSON) (k : string) : option JSON :=
  match v with
  | JObject ms => assoc k ms
  | _ => None
  end.

(** [v == null]: the value is [null] or [undefined]. *)
Definition nullish (v : option JSON) : bool :=
  match v with
  | None | Some JNull => true
  | Some _ => false
  end.

(** [v?.k] *)
Definition opt_get (v : option JSON) (k : string) : option JSON :=
  match v with
  | None | Some JNull => None
  | Some o => get o k
  end.

(** [v.k]: a [TypeError] on [null] and [undefined]. *)
Definition member (v : option JSON) (k : string) : completion (option JSON) :=
  match v with
  | None | Some JNull =>
      Throw (TypeError ("Cannot read properties of null or undefined (reading " +:+ k +:+ ")"))
  | Some o => Return (get o k)
  end.

(** [a ?? b] *)
Definition coalesce (a b : option JSON) : option JSON :=
  if nullish a then b else a.

(** [Boolean(v)], and the test [if (v)] *)
Definition truthy (v : option JSON) : bool :=
  match v with
  | None | Some JNull => false
  | Some (JBool b) => b
  | Some (JNumber m _) => negb (m =? 0)
  | Some (JString s) => negb (String.eqb s EmptyString)
  | Some (JArray _) | Some (JObject _) => true
  end.

(** Truthiness of a [string | undefined] or [string | null]. *)
Definition truthy_str (s : option string) : bool :=
  match s with
  | None | Some EmptyString => false
  | Some _ => true
  end.

Definition code (c : ascii) : N := N_of_ascii c.

Definition is_digit (c : ascii) : bool := ((48 <=? code c) && (code c <=? 57))%N.
Definition digit_value (c : ascii) : Z := Z.of_N (code c) - 48.

(** LineTerminator and WhiteSpace of the language, on code units below 256. *)
Definition is_line_terminator (c : ascii) : bool :=
  ((code c =? 10) || (code c =? 13))%N.
Definition is_white_space (c : ascii) : bool :=
  ((code c =? 9) || (code c =? 11) || (code c =? 12) || (code c =? 32) || (code c =? 160))%N.
(** [\s] of a regular expression, and what [parseInt] skips. *)
Definition is_space (c : ascii) : bool := is_white_space c || is_line_terminator c.

Fixpoint trim_start (s : string) : string :=
  match s with
  | String c r => if is_space c then trim_start r else s
  | EmptyString => EmptyString
  end.

(** The longest prefix of decimal digits, as a number; [None] when there
    is no digit. *)
Fixpoint leading_digits (acc : option Z) (s : string) : option Z :=
  match s with
  | String c r =>
      if is_digit c
      then leading_digits (Some (10 * default 0 acc + digit_value c)) r
      else acc
  | EmptyString => acc
  end.

(** [Number.parseInt(s, 10)]; [None] is [NaN]. The result is the integer
    that the digits denote: this is the number that [Number.parseInt]
    gives up to 2^53 in magnitude; above that, [Number.parseInt] gives the
    nearest double. *)
Definition parseInt (s : string) : option Z :=
  let t := trim_start s in
  let '(sign, t) :=
    match t with
    | String "-" r => (-1, r)
    | String "+" r => (1, r)
    | _ => (1, t)
    end in
  match leading_digits None t with
  | None => None
  | Some m => Some (sign * m)
  end.

(** [s.slice(0, n)] *)
Definition slice0 (n : nat) (s : string) : string := substring 0 n s.

(** [l.join(sep)] *)
Fixpoint join (sep : string) (l : list string) : string :=
  match l with
  | [] => EmptyString
  | [x] => x
  | x :: l' => x +:+ sep +:+ join sep l'
  end.

End JS.
Import JS.

(** ** The rate-limit backoff ([XClient.getRateLimitWaitMs]) *)

Definition MAX_RATE_LIMIT_RETRIES : Z := 2.
Definition DEFAULT_RATE_LIMIT_WAIT_MS : Z := 1000.

(** [nowMs] is the reading of [Date.now()] taken by the call. *)
Definition getRateLimitWaitMs (resetHeader : option string) (nowMs : Z) : Z :=
  if negb (truthy_str resetHeader) then DEFAULT_RATE_LIMIT_WAIT_MS
  else
    match parseInt (default EmptyString resetHeader) with
    | None => DEFAULT_RATE_LIMIT_WAIT_MS
    | Some parsed =>
        let resetMs := if parsed >? 1000000000000 then parsed else parsed * 1000 in
        Z.max (resetMs - nowMs) 0
    end.

(** The wait as section 4.2 of the specification words it. *)
Definition reset_instant_spec (R : Z) : Z :=
  if decide (10 ^ 12 < R) then R else R * 1000.

Definition backoff_wait_spec (header : option string) (now : Z) : Z :=
  match header ≫= parseInt with
  | None => 1000
  | Some R => Z.max (reset_instant_spec R - now) 0
  end.

Example parseInt_seconds : parseInt "1700000000" = Some 1700000000.
Proof. reflexivity. Qed.
Example parseInt_prefix : parseInt "  42abc" = Some 42.
Proof. reflexivity. Qed.
Example parseInt_negative : parseInt "-7" = Some (-7).
Proof. reflexivity. Qed.
Example parseInt_words : parseInt "soon" = None.
Proof. reflexivity. Qed.
Example wait_seconds_header : getRateLimitWaitMs (Some "1700000001") 1700000000250 = 750.
Proof. reflexivity. Qed.
Example wait_millis_header : getRateLimitWaitMs (Some "1700000001000") 1700000000250 = 750.
Proof. reflexivity. Qed.
Example wait_past_reset : getRateLimitWaitMs (Some "1600000000") 1700000000250 = 0.
Proof. reflexivity. Qed.

Lemma parseInt_empty : parseInt EmptyString = None.
Proof. reflexivity. Qed.

Lemma reset_instant_spec_code (R : Z) :
  (if R >? 1000000000000 then R else R * 1000) = reset_instant_spec R.
Proof.
  unfold reset_instant_spec.
  change (10 ^ 12) with 1000000000000.
  destruct (Z.gtb_spec R 1000000000000); case_decide; lia.
Qed.

Lemma getRateLimitWaitMs_refines (header : option string) (now : Z) :
  getRateLimitWaitMs header now = backoff_wait_spec header now.
Proof.
  unfold getRateLimitWaitMs, backoff_wait_spec.
  destruct header as [[|c s]|]; simpl; try reflexivity.
  destruct (parseInt (String c s)) as [R|]; simpl; [|reflexivity].
  by rewrite reset_instant_spec_code.
Qed.


(** Section 8: a reset [R] in epoch seconds that lies ahead of the clock
    gives a wait of [R * 1000 - T] ms. *)
Lemma wait_before_reset_seconds (h : string) (R T : Z) :
  parseInt h = Some R → R <= 10 ^ 12 → T < R * 1000 →
  getRateLimitWaitMs (Some h) T = R * 1000 - T.
Proof.
  intros Hp HR HT. rewrite getRateLimitWaitMs_refines.
  unfold backoff_wait_spec; simpl. rewrite Hp.
  unfold reset_instant_spec. case_decide; lia.
Qed.

(** Section 8: a reset in epoch milliseconds is not scaled. *)
Lemma wait_before_reset_millis (h : string) (R T : Z) :
  parseInt h = Some R → 10 ^ 12 < R →
  getRateLimitWaitMs (Some h) T = Z.max (R - T) 0.
Proof.
  intros Hp HR. rewrite getRateLimitWaitMs_refines.
  unfold backoff_wait_spec; simpl. rewrite Hp.
  unfold reset_instant_spec. case_decide; lia.
Qed.

(** ** HTTP exchange and the response normalizer ([XClient.parseResponse]) *)

Inductive RequestMethod : Type := GET | POST | DELETE.

Definition method_name (m : RequestMethod) : string :=
  match m with GET => "GET" | POST => "POST" | DELETE => "DELETE" end.

(** The [init] handed to [fetch], with the URL. *)
Record Request : Type := mkRequest {
  req_url : string;
  req_method : RequestMethod;
  req_headers : list (string * string);
  req_body : option string;
}.

(** A received response: the status line, the header list (names in lower
    case, as [Headers.get] compares them) and the body read by [res.text()]. *)
Record Response : Type := mkResponse {
  status : N;
  headers : list (string * string);
  text : string;
}.

(** [res.ok] *)
Definition ok (res : Response) : bool :=
  ((200 <=? status res) && (status res <=? 299))%N.

(** [res.headers.get(name)] *)
Definition headers_get (res : Response) (name : string) : option string :=
  assoc name (headers res).

(** The built-ins of the language that the client calls and that are taken
    as given: [JSON.parse] ([None] when it throws a [SyntaxError]),
    [JSON.stringify], the conversion to a string of a number, an array or
    an object inside a template literal, and [(ms / 1000).toFixed(1)]. *)
Class Builtins : Type := {
  JSON_parse : string → option JSON;
  JSON_stringify : JSON → string;
  ToString_composite : JSON → string;
  seconds_toFixed1 : Z → string;
}.

Section Normalizer.
Context `{Builtins}.

(** [`${v}`] *)
Definition to_string (v : option JSON) : string :=
  match v with
  | None => "undefined"
  | Some JNull => "null"
  | Some (JBool true) => "true"
  | Some (JBool false) => "false"
  | Some (JString s) => s
  | Some o => ToString_composite o
  end.

Definition api_error (st : N) (detail : string) : exn :=
  Error ("X API error " +:+ pretty st +:+ ": " +:+ detail).

Definition parseResponse (res : Response) : completion JSON :=
  let text := text res in
  match JSON_parse text with
  | None =>
      if negb (ok res) then Throw (api_error (status res) (slice0 200 text))
      else Return (JObject [])
  | Some data =>
      if negb (ok res) then
        let detail :=
          coalesce (opt_get (Some data) "detail")
            (coalesce (opt_get (Some data) "title")
               (Some (JString (JSON_stringify data)))) in
        Throw (api_error (status res) (to_string detail))
      else Return data
  end.

(** The member [k] of a parsed body when it is there and is not [null]. *)
Definition field_of (body : JSON) (k : string) : option JSON :=
  match body with
  | JObject ms =>
      match assoc k ms with
      | Some JNull | None => None
      | Some v => Some v
      end
  | _ => None
  end.

(** The message detail as sections 4.3 and 7 of the specification word it. *)
Definition error_detail_spec (res : Response) : string :=
  match JSON_parse (text res) with
  | None => slice0 200 (text res)
  | Some body =>
      match field_of body "detail" with
      | Some d => to_string (Some d)
      | None =>
          match field_of body "title" with
          | Some t => to_string (Some t)
          | None => JSON_stringify body
          end
      end
  end.

Lemma coalesce_field (body : JSON) (k : string) (alt : option JSON) :
  coalesce (opt_get (Some body) k) alt =
  match field_of body k with Some v => Some v | None => alt end.
Proof.
  unfold coalesce, opt_get, field_of, get.
  destruct body as [| | | | |ms]; try reflexivity.
  destruct (assoc k ms) as [[]|]; reflexivity.
Qed.

Lemma slice0_length (n : nat) (s : string) : (String.length (slice0 n s) <= n)%nat.
Proof.
  unfold slice0. revert n. induction s as [|c s IH]; intros [|n]; simpl; try lia.
  specialize (IH n). lia.
Qed.

Lemma slice0_prefix (n : nat) (s : string) : String.prefix (slice0 n s) s = true.
Proof.
  unfold slice0. revert n. induction s as [|c s IH]; intros [|n]; simpl; try reflexivity.
  destruct (ascii_dec c c); [apply IH | congruence].
Qed.

Lemma slice0_short (n : nat) (s : string) :
  (String.length s <= n)%nat → slice0 n s = s.
Proof.
  unfold slice0. revert n. induction s as [|c s IH]; intros [|n]; simpl; try reflexivity; try lia.
  intros Hl. f_equal. apply IH. lia.
Qed.

Lemma parseResponse_not_ok (res : Response) :
  ok res = false →
  parseResponse res = Throw (api_error (status res) (error_detail_spec res)).
Proof.
  intros Hok. unfold parseResponse, error_detail_spec. rewrite Hok.
  destruct (JSON_parse (text res)) as [body|]; cbn [negb]; [|reflexivity].
  rewrite !coalesce_field.
  destruct (field_of body "detail"); [reflexivity|].
  destruct (field_of body "title"); reflexivity.
Qed.

Lemma parseResponse_ok (res : Response) :
  ok res = true →
  parseResponse res = Return (default (JObject []) (JSON_parse (text res))).
Proof.
  intros Hok. unfold parseResponse. rewrite Hok. simpl.
  destruct (JSON_parse (text res)); reflexivity.
Qed.

(** C3. A response whose body is not JSON and whose status is 2xx gives the
    empty success envelope, never an error. *)
Theorem parseResponse_empty_success (res : Response) :
  JSON_parse (text res) = None →
  ok res = true →
  parseResponse res = Return (JObject []).
Proof.
  intros Hparse Hok. rewrite parseResponse_ok by done. by rewrite Hparse.
Qed.

(** C4. A response with a non-2xx status raises an error whose message
    carries the numeric status code; its detail is the raw text cut to at
    most 200 characters when the body is not JSON, and otherwise the
    [detail] member of the parsed body, else its [title] member, else the
    JSON serialization of the body. The normalizer raises an error exactly
    when the status is not 2xx. *)
Theorem parseResponse_error (res : Response) :
  (ok res = false →
     parseResponse res =
       Throw (Error ("X API error " +:+ pretty (status res) +:+ ": "
                       +:+ error_detail_spec res)))
  ∧ (JSON_parse (text res) = None →
       error_detail_spec res = slice0 200 (text res)
       ∧ (String.length (error_detail_spec res) <= 200)%nat
       ∧ String.prefix (error_detail_spec res) (text res) = true)
  ∧ (is_throw (parseResponse res) = true ↔ ok res = false).
Proof.
  split; [apply parseResponse_not_ok|]. split.
  - intros Hparse. unfold error_detail_spec. rewrite Hparse.
    auto using slice0_length, slice0_prefix.
  - destruct (ok res) eqn:Hok.
    + rewrite parseResponse_ok by done. simpl. split; congruence.
    + rewrite parseResponse_not_ok by done. simpl. split; congruence.
Qed.

End Normalizer.

(** ** The request executor ([XClient.request]) *)

Record XCredentials : Type := mkCredentials {
  apiKey : string;
  apiSecret : string;
  accessToken : string;
  accessTokenSecret : string;
  bearerToken : option string;
}.

Record KeyPair : Type := mkKeyPair { key : string; secret : string }.

(** What [new OAuth({...})] is given. *)
Record OAuthOptions : Type := mkOAuthOptions {
  consumer : KeyPair;
  signature_method : string;
  hash_function : string → string → string;
}.

(** The request description the oauth-1.0a library signs: besides the URL
    and the method it accepts form data to sign along. *)
Record RequestData : Type := mkRequestData {
  rd_url : string;
  rd_method : string;
  rd_data : option JSON;
}.

(** The oauth-1.0a library and Node's [crypto], taken as given. [authorize]
    draws a nonce and reads the clock; both are arguments here. *)
Class OAuthLibrary : Type := {
  oauth_data : Type;
  oauth_authorize : OAuthOptions → RequestData → KeyPair → string → Z → oauth_data;
  oauth_toHeader : oauth_data → string;
  hmac_sha1_base64 : string → string → string;
}.

(** [onRateLimit] tells whether the caller installed the notification hook.
    The hook is the caller's code: a call of it is recorded in the trace
    with its message, and it is taken to return normally. *)
Record XClientOptions : Type := mkOptions { onRateLimit : bool }.

Record XClient : Type := mkClient {
  oauth : OAuthOptions;
  token : KeyPair;
  options : XClientOptions;
}.

Inductive Event : Type :=
| Fetched (req : Request) (res : completion Response)
| Notified (message : string)
| Slept (ms : Z).

(** What a call can observe and change: the clock in epoch milliseconds,
    the number of nonces drawn so far, and the events so far. *)
Record World : Type := mkWorld {
  clock : Z;
  entropy : nat;
  trace : list Event;
}.

(** The far end, the random source and the timers: the answer to a
    request may depend on everything that happened before and on the time;
    [timer_lateness t now ms] is how many milliseconds after the delay it
    was set for a timer fires, as read on [Date.now()], for a timer set
    at [now] after the events [t] by a call of [sleep] for [ms]. Nothing
    is assumed of it: the event loop and the granularity of the clocks
    decide. *)
Class Outside : Type := {
  remote : list Event → Z → Request → completion Response;
  nonce_source : nat → string;
  timer_lateness : list Event → Z → Z → Z;
}.

Definition is_fetch (e : Event) : bool :=
  match e with Fetched _ _ => true | _ => false end.
Definition is_sleep (e : Event) : bool :=
  match e with Slept _ => true | _ => false end.

(** Attempts and backoff waits recorded in a stretch of trace. *)
Definition attempts (t : list Event) : nat := length (filter is_fetch t).
Definition retries (t : list Event) : nat := length (filter is_sleep t).

Section Executor.
Context `{Builtins} `{OAuthLibrary} `{Outside}.

Definition new_XClient (credentials : XCredentials) (opts : XClientOptions) : XClient :=
  {| oauth := {| consumer := {| key := apiKey credentials; secret := apiSecret credentials |};
                 signature_method := "HMAC-SHA1";
                 hash_function := fun baseString key => hmac_sha1_base64 key baseString |};
     token := {| key := accessToken credentials; secret := accessTokenSecret credentials |};
     options := opts |}.

(** The value of the [Authorization] header for a method and a URL, given
    the nonce and the timestamp of the attempt. *)
Definition authorization (c : XClient) (method : RequestMethod) (url : string)
    (nonce : string) (timestamp : Z) : string :=
  let requestData := {| rd_url := url; rd_method := method_name method; rd_data := None |} in
  oauth_toHeader (oauth_authorize (oauth c) requestData (token c) nonce timestamp).

(** The first statements of [request]: sign, then assemble what [fetch]
    is given. *)
Definition build_request (c : XClient) (method : RequestMethod) (url : string)
    (body : option JSON) (w : World) : Request * World :=
  let nonce := nonce_source (entropy w) in
  let timestamp := clock w `div` 1000 in
  let authHeader := [("Authorization", authorization c method url nonce timestamp)] in
  let headers := authHeader ++ [("Content-Type", "application/json")] in
  ({| req_url := url;
      req_method := method;
      req_headers := headers;
      req_body := if truthy body then JSON_stringify <$> body else None |},
   {| clock := clock w; entropy := S (entropy w); trace := trace w |}).

Definition fetch (req : Request) (w : World) : completion Response * World :=
  let res := remote (trace w) (clock w) req in
  (res, {| clock := clock w; entropy := entropy w; trace := trace w ++ [Fetched req res] |}).

Definition send (c : XClient) (method : RequestMethod) (url : string)
    (body : option JSON) (w : World) : completion Response * World :=
  let '(req, w1) := build_request c method url body w in
  fetch req w1.

Definition rate_limit_message (waitMs retryCount : Z) : string :=
  "Rate limited by X API. Waiting " +:+ seconds_toFixed1 waitMs +:+ "s before retry "
    +:+ pretty (retryCount + 1) +:+ "/" +:+ pretty MAX_RATE_LIMIT_RETRIES +:+ ".".

Definition notify (c : XClient) (message : string) (w : World) : World :=
  if onRateLimit (options c)
  then {| clock := clock w; entropy := entropy w; trace := trace w ++ [Notified message] |}
  else w.

(** Node's [setTimeout(callback, ms)]: a delay that is not between 1 and
    [TIMEOUT_MAX] is set to 1. *)
Definition TIMEOUT_MAX : Z := 2147483647.

Definition timer_delay (ms : Z) : Z :=
  if (1 <=? ms) && (ms <=? TIMEOUT_MAX) then ms else 1.

(** [sleep] returns at once for [ms <= 0]; otherwise it sets a timer for
    [ms] and goes on when the timer fires. The call is recorded with its
    argument in both cases. *)
Definition sleep (ms : Z) (w : World) : World :=
  {| clock := if ms <=? 0 then clock w
              else clock w + timer_delay ms + timer_lateness (trace w) (clock w) ms;
     entropy := entropy w;
     trace := trace w ++ [Slept ms] |}.

(** The body of the retry branch, up to the recursive call. *)
Definition backoff (c : XClient) (res : Response) (retryCount : Z) (w : World) : World :=
  let waitMs := getRateLimitWaitMs (headers_get res "x-rate-limit-reset") (clock w) in
  sleep waitMs (notify c (rate_limit_message waitMs retryCount) w).

Definition should_retry (res : Response) (retryCount : Z) : bool :=
  (status res =? 429)%N && (retryCount <? MAX_RATE_LIMIT_RETRIES).

Equations? request (c : XClient) (method : RequestMethod) (url : string)
    (body : option JSON) (retryCount : Z) (w : World) : completion JSON * World
    by wf (Z.to_nat (MAX_RATE_LIMIT_RETRIES - retryCount)) lt :=
  request c method url body retryCount w with send c method url body w := {
    | (Throw e, w1) := (Throw e, w1);
    | (Return res, w1) with inspect (should_retry res retryCount) := {
      | exist _ true Hretry :=
          request c method url body (retryCount + 1) (backoff c res retryCount w1);
      | exist _ false _ := (parseResponse res, w1) } }.
Proof.
  unfold should_retry, MAX_RATE_LIMIT_RETRIES in *.
  apply andb_prop in Hretry as [_ Hlt]. apply Z.ltb_lt in Hlt. lia.
Qed.

End Executor.

(** *** The retry state machine of section 4.2, as a relation on traces *)

Section ExecutorFacts.
Context `{Builtins} `{OAuthLibrary} `{Outside}.

(** What every attempt of a call for [method], [url] and [body] sends. *)
Definition attempt_of (c : XClient) (method : RequestMethod) (url : string)
    (body : option JSON) (req : Request) : Prop :=
  req_url req = url
  ∧ req_method req = method
  ∧ req_body req = (if truthy body then JSON_stringify <$> body else None)
  ∧ ∃ nonce timestamp,
      req_headers req = [("Authorization", authorization c method url nonce timestamp);
                         ("Content-Type", "application/json")].

(** WaitingBackoff: the notification, when the hook is installed, then the
    wait. *)
Inductive backoff_log (c : XClient) (retryCount : Z) : list Event → Prop :=
| backoff_silent ms :
    onRateLimit (options c) = false → 0 <= ms →
    backoff_log c retryCount [Slept ms]
| backoff_noticed ms :
    onRateLimit (options c) = true → 0 <= ms →
    backoff_log c retryCount [Notified (rate_limit_message ms retryCount); Slept ms].

(** [exchange c method url body n t out]: starting in Sending with the
    counter at [n], the call adds the events [t] and ends with [out]. *)
Inductive exchange (c : XClient) (method : RequestMethod) (url : string)
    (body : option JSON) : Z → list Event → completion JSON → Prop :=
| exchange_failed n req e :
    attempt_of c method url body req →
    exchange c method url body n [Fetched req (Throw e)] (Throw e)
| exchange_final n req res :
    attempt_of c method url body req →
    ¬ (status res = 429%N ∧ n < MAX_RATE_LIMIT_RETRIES) →
    exchange c method url body n [Fetched req (Return res)] (parseResponse res)
| exchange_retry n req res wait rest out :
    attempt_of c method url body req →
    status res = 429%N → n < MAX_RATE_LIMIT_RETRIES →
    backoff_log c n wait →
    exchange c method url body (n + 1) rest out →
    exchange c method url body n (Fetched req (Return res) :: wait ++ rest) out.

Lemma should_retry_spec (res : Response) (n : Z) :
  should_retry res n = true ↔ status res = 429%N ∧ n < MAX_RATE_LIMIT_RETRIES.
Proof.
  unfold should_retry. rewrite andb_true_iff, N.eqb_eq, Z.ltb_lt. tauto.
Qed.

Lemma build_request_attempt (c : XClient) method url body (w : World) :
  attempt_of c method url body (build_request c method url body w).1.
Proof. unfold attempt_of; simpl. eauto 10. Qed.

Lemma send_trace (c : XClient) method url body (w : World) :
  ∃ req, attempt_of c method url body req
         ∧ trace (send c method url body w).2
           = trace w ++ [Fetched req (send c method url body w).1].
Proof.
  exists (build_request c method url body w).1.
  split; [apply build_request_attempt|]. reflexivity.
Qed.

Lemma backoff_trace (c : XClient) (res : Response) (n : Z) (w : World) :
  ∃ wait, backoff_log c n wait ∧ trace (backoff c res n w) = trace w ++ wait.
Proof.
  unfold backoff, notify, sleep.
  set (ms := getRateLimitWaitMs _ _).
  assert (0 <= ms) by (subst ms; rewrite getRateLimitWaitMs_refines;
    unfold backoff_wait_spec; destruct (_ ≫= _); lia).
  destruct (onRateLimit (options c)) eqn:Hhook; simpl.
  - exists [Notified (rate_limit_message ms n); Slept ms].
    split; [by apply backoff_noticed|]. by rewrite <- app_assoc.
  - exists [Slept ms]. split; [by apply backoff_silent | done].
Qed.

(** One turn of the loop: the response is retried exactly when its status
    is 429 and the counter is below the maximum; otherwise it goes to the
    normalizer and the result of that is the result of the call. *)
Lemma request_step (c : XClient) method url body (n : Z) (w : World) :
  request c method url body n w =
  match send c method url body w with
  | (Throw e, w1) => (Throw e, w1)
  | (Return res, w1) =>
      if should_retry res n
      then request c method url body (n + 1) (backoff c res n w1)
      else (parseResponse res, w1)
  end.
Proof.
  simp request.
  destruct (send c method url body w) as [[res|e] w1]; simpl; [|reflexivity].
  destruct (should_retry res n) eqn:Hr; reflexivity.
Qed.

Lemma request_exchange (c : XClient) method url body (n : Z) (w : World) :
  ∃ new, trace (request c method url body n w).2 = trace w ++ new
         ∧ exchange c method url body n new (request c method url body n w).1.
Proof.
  remember (Z.to_nat (MAX_RATE_LIMIT_RETRIES - n)) as fuel eqn:Hfuel.
  revert n w Hfuel.
  induction (lt_wf fuel) as [fuel _ IH]. intros n w ->.
  rewrite request_step.
  destruct (send_trace c method url body w) as (req & Hreq & Htr).
  destruct (send c method url body w) as [[res|e] w1]; simpl in *.
  - destruct (should_retry res n) eqn:Hr.
    + apply should_retry_spec in Hr as [H429 Hlt].
      destruct (backoff_trace c res n w1) as (wait & Hwait & Hbt).
      destruct (IH (Z.to_nat (MAX_RATE_LIMIT_RETRIES - (n + 1)))
                  ltac:(unfold MAX_RATE_LIMIT_RETRIES in *; lia)
                  (n + 1) (backoff c res n w1) eq_refl) as (rest & Hrest & Hex).
      exists (Fetched req (Return res) :: wait ++ rest). split.
      * rewrite Hrest, Hbt, Htr. by rewrite <- !app_assoc.
      * by apply exchange_retry.
    + exists [Fetched req (Return res)]. split; [done|].
      apply exchange_final; [done|]. rewrite <- should_retry_spec. congruence.
  - exists [Fetched req (Throw e)]. split; [done|]. by apply exchange_failed.
Qed.

Lemma backoff_log_counts (c : XClient) (n : Z) (wait : list Event) :
  backoff_log c n wait → attempts wait = 0%nat ∧ retries wait = 1%nat.
Proof. by destruct 1. Qed.

Lemma attempts_app (t1 t2 : list Event) :
  attempts (t1 ++ t2) = (attempts t1 + attempts t2)%nat.
Proof. unfold attempts. by rewrite filter_app, length_app. Qed.

Lemma retries_app (t1 t2 : list Event) :
  retries (t1 ++ t2) = (retries t1 + retries t2)%nat.
Proof. unfold retries. by rewrite filter_app, length_app. Qed.

(** The counter is the decreasing measure: from counter [n] at most
    [MAX_RATE_LIMIT_RETRIES - n] waits follow, each followed by one more
    attempt. *)
Lemma exchange_counts (c : XClient) method url body (n : Z) (t : list Event) out :
  exchange c method url body n t out →
  (retries t <= Z.to_nat (MAX_RATE_LIMIT_RETRIES - n))%nat
  ∧ attempts t = S (retries t).
Proof.
  induction 1 as [n req e _|n req res _ _|n req res wait rest out _ _ Hlt Hw _ [IHr IHa]].
  - split; [apply Nat.le_0_l | reflexivity].
  - split; [apply Nat.le_0_l | reflexivity].
  - apply backoff_log_counts in Hw as [Hwa Hwr].
    change (Fetched req (Return res) :: wait ++ rest)
      with ([Fetched req (Return res)] ++ wait ++ rest).
    rewrite !attempts_app, !retries_app, Hwa, Hwr.
    change (attempts [Fetched req (Return res)]) with 1%nat.
    change (retries [Fetched req (Return res)]) with 0%nat.
    unfold MAX_RATE_LIMIT_RETRIES in *. lia.
Qed.

(** C1. A call of the executor (the counter starts at 0) makes at most 2
    rate-limit retries, 3 attempts in all: it follows the retry state
    machine, in which a response is retried only when its status is 429 and
    the counter is below 2, and any other response is handed to the
    normalizer, whose outcome ends the call. The executor is a total
    function, defined by recursion on the measure [2 - retryCount]. *)
Theorem request_retries_bounded (c : XClient) (method : RequestMethod)
    (url : string) (body : option JSON) (w : World) :
  ∃ new : list Event,
    trace (request c method url body 0 w).2 = trace w ++ new
    ∧ exchange c method url body 0 new (request c method url body 0 w).1
    ∧ (retries new <= 2)%nat
    ∧ (attempts new <= 3)%nat.
Proof.
  destruct (request_exchange c method url body 0 w) as (new & Htr & Hex).
  exists new. split; [done|]. split; [done|].
  apply exchange_counts in Hex as [Hr Ha].
  change (Z.to_nat (MAX_RATE_LIMIT_RETRIES - 0)) with 2%nat in Hr. lia.
Qed.

Lemma exchange_attempts (c : XClient) method url body (n : Z) (t : list Event) out :
  exchange c method url body n t out →
  ∀ req res, Fetched req res ∈ t → attempt_of c method url body req.
Proof.
  induction 1 as [n req e Hreq|n req res Hreq _
                 |n req res wait rest out Hreq _ _ Hw _ IH]; intros req' res' Hin.
  - apply list_elem_of_singleton in Hin. by inversion Hin; subst.
  - apply list_elem_of_singleton in Hin. by inversion Hin; subst.
  - apply elem_of_cons in Hin as [Heq|Hin]; [by inversion Heq; subst|].
    apply elem_of_app in Hin as [Hin|Hin]; [|by eapply IH].
    destruct Hw; repeat (apply elem_of_cons in Hin as [Heq|Hin]; [discriminate|]);
      by apply elem_of_nil in Hin.
Qed.

(** Every call starts by sending a signed request. *)
Lemma exchange_first (c : XClient) method url body (n : Z) (t : list Event) out :
  exchange c method url body n t out →
  ∃ req res rest, t = Fetched req res :: rest ∧ attempt_of c method url body req.
Proof. destruct 1; eauto 10. Qed.

(** C7. The [Authorization] header of an attempt depends on the method,
    the URL, the nonce, the timestamp and the secrets held by the client,
    and not on the body: two calls that differ in the body only hand the
    library the same request description, without form data, and send the
    same headers; and every attempt of a whole call, retries included,
    carries a header of that form. *)
Theorem authorization_body_independent (c : XClient) (method : RequestMethod)
    (url : string) (b1 b2 : option JSON) (w : World) :
  req_headers (build_request c method url b1 w).1
    = req_headers (build_request c method url b2 w).1
  ∧ req_headers (build_request c method url b1 w).1
    = [("Authorization",
        oauth_toHeader
          (oauth_authorize (oauth c)
             {| rd_url := url; rd_method := method_name method; rd_data := None |}
             (token c) (nonce_source (entropy w)) (clock w `div` 1000)));
       ("Content-Type", "application/json")]
  ∧ (build_request c method url b1 w).2 = (build_request c method url b2 w).2
  ∧ ∀ new req res,
      trace (request c method url b1 0 w).2 = trace w ++ new →
      Fetched req res ∈ new →
      ∃ nonce timestamp,
        req_headers req
        = [("Authorization",
            oauth_toHeader
              (oauth_authorize (oauth c)
                 {| rd_url := url; rd_method := method_name method; rd_data := None |}
                 (token c) nonce timestamp));
           ("Content-Type", "application/json")].
Proof.
  split; [reflexivity|]. split; [reflexivity|]. split; [reflexivity|].
  intros new req res Htr Hin.
  destruct (request_exchange c method url b1 0 w) as (new' & Htr' & Hex).
  rewrite Htr in Htr'. apply app_inv_head in Htr' as <-.
  by destruct (exchange_attempts _ _ _ _ _ _ _ Hex req res Hin) as (_ & _ & _ & Hh).
Qed.

End ExecutorFacts.

(** ** Query strings ([URLSearchParams]) *)

Module URL.

Definition hex_digit (n : N) : ascii :=
  ascii_of_N (if (n <? 10)%N then 48 + n else 55 + n).

Definition percent (b : N) : string :=
  String "%" (String (hex_digit (b / 16)) (String (hex_digit (b mod 16)) EmptyString)).

(** The bytes of the UTF-8 encoding of a code unit below 256. *)
Definition utf8 (c : ascii) : list N :=
  let n := code c in
  if (n <? 128)%N then [n] else [192 + n / 64; 128 + n mod 64]%N.

(** Bytes the application/x-www-form-urlencoded serializer leaves as they
    are: [*], [-], [.], [_], digits and letters. *)
Definition form_safe (b : N) : bool :=
  ((b =? 42) || (b =? 45) || (b =? 46) || (b =? 95)
   || ((48 <=? b) && (b <=? 57)) || ((65 <=? b) && (b <=? 90))
   || ((97 <=? b) && (b <=? 122)))%N.

Definition encode_byte (b : N) : string :=
  if (b =? 32)%N then "+"
  else if form_safe b then String (ascii_of_N b) EmptyString
  else percent b.

Fixpoint encode (s : string) : string :=
  match s with
  | EmptyString => EmptyString
  | String c r => String.concat EmptyString (map encode_byte (utf8 c)) +:+ encode r
  end.

(** The list of a [URLSearchParams] object, in order. *)
Definition params : Type := list (string * string).

(** [params.set(name, value)] *)
Fixpoint set (name value : string) (ps : params) : params :=
  match ps with
  | [] => [(name, value)]
  | (k, v) :: ps' =>
      if String.eqb k name
      then (k, value) :: filter (λ kv, negb (String.eqb kv.1 name)) ps'
      else (k, v) :: set name value ps'
  end.

(** [params.toString()] *)
Definition toString (ps : params) : string :=
  join "&" (map (λ kv, encode kv.1 +:+ "=" +:+ encode kv.2) ps).

End URL.

(** ** The resource methods of [XClient] *)

Definition BASE_URL : string := "https://api.x.com/2".

Record XPaginatedResult : Type := mkPaginated {
  data : list JSON;
  nextToken : option JSON;
  meta : option JSON;
}.

(** The optional second argument of [createPost]. *)
Record PostOptions : Type := mkPostOptions {
  replyTo : option string;
  quoteTweetId : option string;
}.

#[global] Instance completion_ret : MRet completion := λ A a, Return a.
#[global] Instance completion_bind : MBind completion :=
  λ A B k c, match c with Return a => k a | Throw e => Throw e end.

(** [await this.request(...)] followed by the rest of the method: the
    world is the one the request left. *)
Definition and_then {A B} (r : completion A * World) (k : A → completion B)
    : completion B * World :=
  (r.1 ≫= k, r.2).

(** [if (!res.data) throw new Error(message); return res.data] *)
Definition data_or_throw (message : string) (res : JSON) : completion JSON :=
  d ← member (Some res) "data";
  match d with
  | Some v => if negb (truthy d) then Throw (Error message) else Return v
  | None => Throw (Error message)
  end.

(** [Boolean(res.data?.field)] *)
Definition data_flag (field : string) (res : JSON) : completion bool :=
  d ← member (Some res) "data";
  Return (truthy (opt_get d field)).

(** The page a list method returns. *)
Definition page_of (res : JSON) : completion XPaginatedResult :=
  d ← member (Some res) "data";
  m ← member (Some res) "meta";
  Return {| data := match d with Some (JArray items) => items | _ => [] end;
            nextToken := opt_get m "next_token";
            meta := m |}.

(** [Math.max(lo, Math.min(hi, x))] *)
Definition clamped (lo hi x : Z) : Z := Z.max lo (Z.min hi x).

Definition createPost_body (text : string) (opts : option PostOptions) : JSON :=
  let body := [("text", JString text)] in
  let body :=
    match opts ≫= replyTo with
    | Some r =>
        if truthy_str (Some r)
        then body ++ [("reply", JObject [("in_reply_to_tweet_id", JString r)])]
        else body
    | None => body
    end in
  let body :=
    match opts ≫= quoteTweetId with
    | Some q =>
        if truthy_str (Some q) then body ++ [("quote_tweet_id", JString q)] else body
    | None => body
    end in
  JObject body.

Definition user_fields : string :=
  "user.fields=id,name,username,description,public_metrics".

Definition getUserPosts_params (maxResults : option Z) (paginationToken : option string)
    : URL.params :=
  let maxResults := default 10 maxResults in
  let clamped := clamped 5 100 maxResults in
  let params := [("max_results", pretty clamped);
                 ("tweet.fields", "created_at,public_metrics,text")] in
  if truthy_str paginationToken
  then URL.set "pagination_token" (default EmptyString paginationToken) params
  else params.

Definition getUserPosts_url (userId : string) (maxResults : option Z)
    (paginationToken : option string) : string :=
  BASE_URL +:+ "/users/" +:+ userId +:+ "/tweets?"
    +:+ URL.toString (getUserPosts_params maxResults paginationToken).

Definition searchRecent_params (query : string) (maxResults : option Z)
    (paginationToken : option string) : URL.params :=
  let maxResults := default 10 maxResults in
  let clamped := clamped 10 100 maxResults in
  let params := [("query", query);
                 ("max_results", pretty clamped);
                 ("tweet.fields", "created_at,public_metrics,author_id,text")] in
  if truthy_str paginationToken
  then URL.set "next_token" (default EmptyString paginationToken) params
  else params.

Definition searchRecent_url (query : string) (maxResults : option Z)
    (paginationToken : option string) : string :=
  BASE_URL +:+ "/tweets/search/recent?"
    +:+ URL.toString (searchRecent_params query maxResults paginationToken).

Section Resources.
Context `{Builtins} `{OAuthLibrary} `{Outside}.

Definition createPost (c : XClient) (text : string) (opts : option PostOptions)
    (w : World) : completion JSON * World :=
  and_then (request c POST (BASE_URL +:+ "/tweets") (Some (createPost_body text opts)) 0 w)
    (data_or_throw "X API returned no post data.").

Definition deletePost (c : XClient) (id : string) (w : World) : completion bool * World :=
  and_then (request c DELETE (BASE_URL +:+ "/tweets/" +:+ id) None 0 w)
    (data_flag "deleted").

Definition me (c : XClient) (w : World) : completion JSON * World :=
  and_then (request c GET (BASE_URL +:+ "/users/me?" +:+ user_fields) None 0 w)
    (data_or_throw "X API returned no authenticated user data.").

Definition getUser (c : XClient) (username : string) (w : World) : completion JSON * World :=
  and_then
    (request c GET (BASE_URL +:+ "/users/by/username/" +:+ username +:+ "?" +:+ user_fields)
       None 0 w)
    (data_or_throw ("X API returned no user data for @" +:+ username +:+ ".")).

Definition getUserPosts (c : XClient) (userId : string) (maxResults : option Z)
    (paginationToken : option string) (w : World) : completion XPaginatedResult * World :=
  and_then (request c GET (getUserPosts_url userId maxResults paginationToken) None 0 w)
    page_of.

Definition searchRecent (c : XClient) (query : string) (maxResults : option Z)
    (paginationToken : option string) (w : World) : completion XPaginatedResult * World :=
  and_then (request c GET (searchRecent_url query maxResults paginationToken) None 0 w)
    page_of.

Definition like (c : XClient) (userId tweetId : string) (w : World) : completion bool * World :=
  and_then
    (request c POST (BASE_URL +:+ "/users/" +:+ userId +:+ "/likes")
       (Some (JObject [("tweet_id", JString tweetId)])) 0 w)
    (data_flag "liked").

Definition unlike (c : XClient) (userId tweetId : string) (w : World) : completion bool * World :=
  and_then
    (request c DELETE (BASE_URL +:+ "/users/" +:+ userId +:+ "/likes/" +:+ tweetId) None 0 w)
    (λ res, liked ← data_flag "liked" res; Return (negb liked)).

Definition retweet (c : XClient) (userId tweetId : string) (w : World) : completion bool * World :=
  and_then
    (request c POST (BASE_URL +:+ "/users/" +:+ userId +:+ "/retweets")
       (Some (JObject [("tweet_id", JString tweetId)])) 0 w)
    (data_flag "retweeted").

Definition follow (c : XClient) (sourceUserId targetUserId : string) (w : World)
    : completion bool * World :=
  and_then
    (request c POST (BASE_URL +:+ "/users/" +:+ sourceUserId +:+ "/following")
       (Some (JObject [("target_user_id", JString targetUserId)])) 0 w)
    (data_flag "following").

Definition unfollow (c : XClient) (sourceUserId targetUserId : string) (w : World)
    : completion bool * World :=
  and_then
    (request c DELETE
       (BASE_URL +:+ "/users/" +:+ sourceUserId +:+ "/following/" +:+ targetUserId) None 0 w)
    (λ res, following ← data_flag "following" res; Return (negb following)).

End Resources.

(** *** Page sizes *)

(** [clamp(x, lo, hi)] by saturation. *)
Definition clamp_spec (x lo hi : Z) : Z :=
  if decide (x < lo) then lo else if decide (hi < x) then hi else x.

(** The part of the query string that carries the page cursor. *)
Definition cursor_suffix (name : string) (paginationToken : option string) : string :=
  match paginationToken with
  | Some (String c t) => "&" +:+ name +:+ "=" +:+ URL.encode (String c t)
  | _ => EmptyString
  end.

Lemma clamped_spec (lo hi x : Z) : lo <= hi → clamped lo hi x = clamp_spec x lo hi.
Proof. unfold clamped, clamp_spec. intros. repeat case_decide; lia. Qed.

Lemma clamp_spec_range (lo hi x : Z) : lo <= hi → lo <= clamp_spec x lo hi <= hi.
Proof. unfold clamp_spec. intros. repeat case_decide; lia. Qed.

Lemma encode_page_size (n : Z) : 0 <= n <= 100 → URL.encode (pretty n) = pretty n.
Proof.
  assert (Hall : Forall (λ n : Z, URL.encode (pretty n) = pretty n) (seqZ 0 101)).
  { apply (bool_decide_unpack _). vm_compute. exact I. }
  rewrite Forall_seqZ in Hall. intros. apply Hall. lia.
Qed.

Lemma string_app_assoc (a b c : string) : (a +:+ b) +:+ c = a +:+ (b +:+ c).
Proof.
  induction a as [|x a IH]; [reflexivity|].
  change (String x ((a +:+ b) +:+ c) = String x (a +:+ (b +:+ c))). by rewrite IH.
Qed.

Lemma string_app_nil_r (a : string) : a +:+ EmptyString = a.
Proof.
  induction a as [|x a IH]; [reflexivity|].
  change (String x (a +:+ EmptyString) = String x a). by rewrite IH.
Qed.

Ltac fold_query :=
  unfold URL.toString;
  cbn [truthy_str cursor_suffix URL.set map join fst snd String.eqb Ascii.eqb Bool.eqb
       negb andb filter list_filter default from_option];
  unfold id;
  repeat match goal with
    | |- context [URL.encode ?s] =>
        lazymatch s with
        | pretty _ => fail
        | _ => is_ground s; let r := eval vm_compute in (URL.encode s) in
               change (URL.encode s) with r
        end
    end.

Lemma getUserPosts_query (maxResults : option Z) (paginationToken : option string) :
  URL.toString (getUserPosts_params maxResults paginationToken)
  = "max_results=" +:+ pretty (clamp_spec (default 10 maxResults) 5 100)
      +:+ "&tweet.fields=created_at%2Cpublic_metrics%2Ctext"
      +:+ cursor_suffix "pagination_token" paginationToken.
Proof.
  unfold getUserPosts_params.
  rewrite clamped_spec by lia.
  pose proof (clamp_spec_range 5 100 (default 10 maxResults) ltac:(lia)) as Hr.
  pose proof (encode_page_size (clamp_spec (default 10 maxResults) 5 100) ltac:(lia)) as He.
  generalize dependent (default 10 maxResults); intros m Hr He.
  destruct paginationToken as [[|ch tok]|]; fold_query; rewrite He;
    rewrite ?string_app_assoc, ?string_app_nil_r; reflexivity.
Qed.

Lemma searchRecent_query (query : string) (maxResults : option Z)
    (paginationToken : option string) :
  URL.toString (searchRecent_params query maxResults paginationToken)
  = "query=" +:+ URL.encode query
      +:+ "&max_results=" +:+ pretty (clamp_spec (default 10 maxResults) 10 100)
      +:+ "&tweet.fields=created_at%2Cpublic_metrics%2Cauthor_id%2Ctext"
      +:+ cursor_suffix "next_token" paginationToken.
Proof.
  unfold searchRecent_params.
  rewrite clamped_spec by lia.
  pose proof (clamp_spec_range 10 100 (default 10 maxResults) ltac:(lia)) as Hr.
  pose proof (encode_page_size (clamp_spec (default 10 maxResults) 10 100) ltac:(lia)) as He.
  generalize dependent (default 10 maxResults); intros m Hr He.
  destruct paginationToken as [[|ch tok]|]; fold_query; rewrite He;
    rewrite ?string_app_assoc, ?string_app_nil_r; reflexivity.
Qed.

Example searchRecent_foo_3 :
  searchRecent_url "foo" (Some 3) None
  = "https://api.x.com/2/tweets/search/recent?query=foo&max_results=10&tweet.fields=created_at%2Cpublic_metrics%2Cauthor_id%2Ctext".
Proof. reflexivity. Qed.

Example getUserPosts_250 :
  getUserPosts_url "42" (Some 250) (Some "a b")
  = "https://api.x.com/2/users/42/tweets?max_results=100&tweet.fields=created_at%2Cpublic_metrics%2Ctext&pagination_token=a+b".
Proof. reflexivity. Qed.

Section ResourceFacts.
Context `{Builtins} `{OAuthLibrary} `{Outside}.

(** The first thing a call of the executor does is to send its request. *)
Lemma request_first (c : XClient) method url body (w : World) :
  ∃ req res rest,
    trace (request c method url body 0 w).2 = trace w ++ Fetched req res :: rest
    ∧ req_method req = method ∧ req_url req = url.
Proof.
  destruct (request_exchange c method url body 0 w) as (new & Htr & Hex).
  apply exchange_first in Hex as (req & res & rest & -> & Hurl & Hm & _).
  by exists req, res, rest.
Qed.

(** C5. Whatever page size the caller passes, the timeline listing sends
    [max_results = clamp(maxResults, 5, 100)] and the recent search sends
    [max_results = clamp(maxResults, 10, 100)]; the value is saturated, no
    error is raised for it and the request is sent. *)
Theorem max_results_clamped (c : XClient) (userId query : string) (maxResults : Z)
    (paginationToken : option string) (w : World) :
  JS.assoc "max_results" (getUserPosts_params (Some maxResults) paginationToken)
    = Some (pretty (clamp_spec maxResults 5 100))
  ∧ JS.assoc "max_results" (searchRecent_params query (Some maxResults) paginationToken)
    = Some (pretty (clamp_spec maxResults 10 100))
  ∧ clamped 5 100 maxResults = clamp_spec maxResults 5 100
  ∧ clamped 10 100 maxResults = clamp_spec maxResults 10 100
  ∧ (∃ req res rest,
       trace (getUserPosts c userId (Some maxResults) paginationToken w).2
         = trace w ++ Fetched req res :: rest
       ∧ req_method req = GET
       ∧ req_url req
         = BASE_URL +:+ "/users/" +:+ userId +:+ "/tweets?"
             +:+ "max_results=" +:+ pretty (clamp_spec maxResults 5 100)
             +:+ "&tweet.fields=created_at%2Cpublic_metrics%2Ctext"
             +:+ cursor_suffix "pagination_token" paginationToken)
  ∧ (∃ req res rest,
       trace (searchRecent c query (Some maxResults) paginationToken w).2
         = trace w ++ Fetched req res :: rest
       ∧ req_method req = GET
       ∧ req_url req
         = BASE_URL +:+ "/tweets/search/recent?"
             +:+ "query=" +:+ URL.encode query
             +:+ "&max_results=" +:+ pretty (clamp_spec maxResults 10 100)
             +:+ "&tweet.fields=created_at%2Cpublic_metrics%2Cauthor_id%2Ctext"
             +:+ cursor_suffix "next_token" paginationToken).
Proof.
  split; [|split; [|split; [|split; [|split]]]].
  - unfold getUserPosts_params. rewrite clamped_spec by lia.
    by destruct paginationToken as [[|ch tok]|].
  - unfold searchRecent_params. rewrite clamped_spec by lia.
    by destruct paginationToken as [[|ch tok]|].
  - apply clamped_spec; lia.
  - apply clamped_spec; lia.
  - unfold getUserPosts, and_then; cbn [snd].
    destruct (request_first c GET (getUserPosts_url userId (Some maxResults) paginationToken)
                None w) as (req & res & rest & Htr & Hm & Hurl).
    exists req, res, rest. split; [done|]. split; [done|].
    rewrite Hurl. unfold getUserPosts_url. by rewrite getUserPosts_query.
  - unfold searchRecent, and_then; cbn [snd].
    destruct (request_first c GET (searchRecent_url query (Some maxResults) paginationToken)
                None w) as (req & res & rest & Htr & Hm & Hurl).
    exists req, res, rest. split; [done|]. split; [done|].
    rewrite Hurl. unfold searchRecent_url. by rewrite searchRecent_query.
Qed.

(** *** Confirmations *)




Lemma and_then_return {A B} (r : completion A * World) (k : A → completion B) (a : A) :
  r.1 = Return a → (and_then r k).1 = k a.
Proof. unfold and_then. cbn [fst]. by intros ->. Qed.


(** *** Entities *)

Lemma data_or_throw_absent (message : string) (res : JSON) :
  res ≠ JNull → truthy (get res "data") = false →
  data_or_throw message res = Throw (Error message).
Proof.
  unfold data_or_throw. intros Hnull Hd.
  destruct res as [| | | | |ms]; try done. cbn in *.
  destruct (assoc "data" ms) as [v|]; [|reflexivity]. by rewrite Hd.
Qed.

Lemma data_or_throw_returns (message : string) (res v : JSON) :
  data_or_throw message res = Return v →
  get res "data" = Some v ∧ truthy (Some v) = true.
Proof.
  intros Hr. unfold data_or_throw in Hr.
  destruct res as [| | | | |ms]; cbn in Hr; try discriminate.
  cbn. destruct (assoc "data" ms) as [d|] eqn:Hd; [|discriminate].
  destruct (truthy (Some d)) eqn:Ht; cbn in Hr; [|discriminate].
  by injection Hr as ->.
Qed.

Lemma and_then_returns {A B} (r : completion A * World) (k : A → completion B) (b : B) :
  (and_then r k).1 = Return b → ∃ a, r.1 = Return a ∧ k a = Return b.
Proof. unfold and_then. cbn [fst]. destruct r.1 as [a|e]; [eauto | discriminate]. Qed.

(** The members that the declared entity types require. *)
Definition XPost_members : list string := ["id"; "text"].
Definition XUser_members : list string := ["id"; "name"; "username"].

Definition has_members (names : list string) (v : JSON) : bool :=
  forallb (λ k, bool_decide (is_Some (get v k))) names.

(** What an entity method makes of the outcome [called] of its request:
    an error of the request is passed on; the envelope [null] has no
    members to read; an envelope without a [data] member, or with one
    that is falsy, gives the error with [message]; and a truthy [data]
    member is returned as it is, whatever it holds. *)
Definition needs_data (message : string) (called result : completion JSON) : Prop :=
  (∀ e, called = Throw e → result = Throw e)
  ∧ (called = Return JNull → ∃ m, result = Throw (TypeError m))
  ∧ (∀ envelope, called = Return envelope → envelope ≠ JNull →
       truthy (get envelope "data") = false → result = Throw (Error message))
  ∧ (∀ envelope v, called = Return envelope →
       get envelope "data" = Some v → truthy (Some v) = true → result = Return v).

Lemma data_or_throw_needs_data (message : string) (r : completion JSON * World) :
  needs_data message r.1 (and_then r (data_or_throw message)).1.
Proof.
  unfold needs_data, and_then. cbn [fst]. repeat apply conj.
  - by intros e ->.
  - intros ->. by eexists.
  - intros envelope -> Hnull Hd. by apply data_or_throw_absent.
  - intros envelope v -> Hd Ht. cbn. unfold data_or_throw.
    destruct envelope; try discriminate. cbn. cbn in Hd. rewrite Hd. cbn [mbind].
    by rewrite Ht.
Qed.

(** C10, as the code has it. When the envelope of a successful response
    has no [data] member, or a falsy one, [createPost], [me] and [getUser]
    raise an error saying that the API returned no data, and return
    nothing; when the envelope is [null] they raise a [TypeError]. A
    value they return is the [data] member of the envelope, which is
    truthy; nothing is checked of what it holds. *)
Theorem entity_methods_need_data (c : XClient) (w : World) (text username : string)
    (opts : option PostOptions) :
  needs_data "X API returned no post data."
    (request c POST (BASE_URL +:+ "/tweets") (Some (createPost_body text opts)) 0 w).1
    (createPost c text opts w).1
  ∧ needs_data "X API returned no authenticated user data."
      (request c GET (BASE_URL +:+ "/users/me?" +:+ user_fields) None 0 w).1
      (me c w).1
  ∧ needs_data ("X API returned no user data for @" +:+ username +:+ ".")
      (request c GET
         (BASE_URL +:+ "/users/by/username/" +:+ username +:+ "?" +:+ user_fields)
         None 0 w).1
      (getUser c username w).1.
Proof. repeat apply conj; apply data_or_throw_needs_data. Qed.

End ResourceFacts.

(** ** Regular expressions of [src/config.ts]

    A backtracking matcher with the priorities of the language: a greedy
    star tries one more turn before it goes on, a lazy star goes on before
    it tries one more turn, an alternative tries its left side first. The
    patterns of the client start with [^] and are matched from the start
    of the line only. *)

Module Regex.

Inductive re : Type :=
| Eps
| Chr (p : ascii → bool)
| Seq (r1 r2 : re)
| Alt (r1 r2 : re)
| Star (r : re)
| LazyStar (r : re)
| Group (n : nat) (r : re)
| Eoi.

Definition plus (r : re) : re := Seq r (Star r).
Definition lazy_plus (r : re) : re := Seq r (LazyStar r).
Definition opt (r : re) : re := Alt r Eps.

(** The groups matched so far, the latest first. *)
Definition captures : Type := list (nat * string).

Definition capture (n : nat) (caps : captures) : option string :=
  snd <$> find (λ c, Nat.eqb c.1 n) caps.

(** What [r] consumed when it was given [s] and left [s']. *)
Definition consumed (s s' : string) : string :=
  substring 0 (String.length s - String.length s') s.

Fixpoint run (r : re) (s : string) (caps : captures)
    (k : string → captures → option captures) {struct r} : option captures :=
  match r with
  | Eps => k s caps
  | Chr p =>
      match s with
      | String c s' => if p c then k s' caps else None
      | EmptyString => None
      end
  | Seq r1 r2 => run r1 s caps (λ s' caps', run r2 s' caps' k)
  | Alt r1 r2 =>
      match run r1 s caps k with
      | Some c => Some c
      | None => run r2 s caps k
      end
  | Star r0 =>
      (fix loop (fuel : nat) (s : string) (caps : captures) {struct fuel} :=
         match fuel with
         | O => k s caps
         | S fuel' =>
             match run r0 s caps
                     (λ s' caps',
                        if (String.length s' <? String.length s)%nat
                        then loop fuel' s' caps' else None) with
             | Some c => Some c
             | None => k s caps
             end
         end) (String.length s) s caps
  | LazyStar r0 =>
      (fix loop (fuel : nat) (s : string) (caps : captures) {struct fuel} :=
         match fuel with
         | O => k s caps
         | S fuel' =>
             match k s caps with
             | Some c => Some c
             | None =>
                 run r0 s caps
                   (λ s' caps',
                      if (String.length s' <? String.length s)%nat
                      then loop fuel' s' caps' else None)
             end
         end) (String.length s) s caps
  | Group n r0 => run r0 s caps (λ s' caps', k s' ((n, consumed s s') :: caps'))
  | Eoi =>
      match s with
      | EmptyString => k s caps
      | String _ _ => None
      end
  end.

(** [line.match(r)] for a pattern anchored at the start. *)
Definition exec (r : re) (line : string) : option captures :=
  run r line [] (λ _ caps, Some caps).

(** [r.test(line)] *)
Definition test (r : re) (line : string) : bool :=
  bool_decide (is_Some (exec r line)).

Definition char (c : ascii) : ascii → bool := Ascii.eqb c.
Definition space : re := Chr is_space.
Definition dot : re := Chr (λ c, negb (is_line_terminator c)).

End Regex.

(** ** Credential loading ([loadCredentials]) *)

Abbreviation Env := (gmap string string).

(** What is at the config path when [existsSync] finds something there:
    its [mode] as [statSync] reports it ([None] when [statSync] throws),
    and what [readFileSync] gives for it: its content, or the exception
    that [readFileSync] throws (for a directory, or for a file that the
    process may not read). *)
Record ConfigFile : Type := mkConfigFile {
  mode : option N;
  content : completion string;
}.

(** The process environment and the file system, by path. *)
Record Host : Type := mkHost {
  env : Env;
  files : string → option ConfigFile;
}.

(** What a call of [loadCredentials] leaves: its outcome, the process
    environment it has written to, and the lines sent to [console.warn]. *)
Record Loaded : Type := mkLoaded {
  outcome : completion XCredentials;
  env_after : Env;
  warnings : list string;
}.

(** Node's [path.resolve], taken as given. *)
Class NodePath : Type := { path_resolve : string → string → string }.

Definition newline : string := String "010" EmptyString.

(** [content.split(newline)] *)
Fixpoint split_lines (s : string) : list string :=
  match s with
  | EmptyString => [EmptyString]
  | String c r =>
      if Ascii.eqb c "010" then EmptyString :: split_lines r
      else
        match split_lines r with
        | l :: ls => String c l :: ls
        | [] => [String c EmptyString]
        end
  end.

Definition upper (c : ascii) : bool := ((65 <=? code c) && (code c <=? 90))%N.

(** The pattern of a line to skip: spaces, then [#] or the end of the input. *)
Definition comment_or_blank : Regex.re :=
  Regex.Seq (Regex.Star Regex.space)
    (Regex.Group 1 (Regex.Alt (Regex.Chr (Regex.char "#")) Regex.Eoi)).

(** The pattern of an assignment line: spaces, then group 1, a name that
    starts with [A-Z_] and goes on with any number of [A-Z0-9_]; spaces,
    [=], spaces; then group 2, one or more characters of the line, as few
    as possible; then, optionally, one or more spaces, [#] and the rest of
    the line; then the end of the input. *)
Definition assignment : Regex.re :=
  Regex.Seq (Regex.Star Regex.space)
  (Regex.Seq
     (Regex.Group 1
        (Regex.Seq (Regex.Chr (λ c, upper c || Regex.char "_" c))
           (Regex.Star (Regex.Chr (λ c, upper c || is_digit c || Regex.char "_" c)))))
  (Regex.Seq (Regex.Star Regex.space)
  (Regex.Seq (Regex.Chr (Regex.char "="))
  (Regex.Seq (Regex.Star Regex.space)
  (Regex.Seq (Regex.Group 2 (Regex.lazy_plus Regex.dot))
  (Regex.Seq
     (Regex.opt
        (Regex.Seq (Regex.plus Regex.space)
           (Regex.Seq (Regex.Chr (Regex.char "#")) (Regex.Star Regex.dot))))
     Regex.Eoi)))))).

(** The body of the loop over the lines of the config file. *)
Definition merge_line (e : Env) (line : string) : Env :=
  if Regex.test comment_or_blank line then e
  else
    match Regex.exec assignment line with
    | Some caps =>
        match Regex.capture 1 caps, Regex.capture 2 caps with
        | Some name, Some value =>
            if negb (truthy_str (e !! name)) then <[name := value]> e else e
        | _, _ => e
        end
    | None => e
    end.

Definition merge_config (content : string) (e : Env) : Env :=
  fold_left merge_line (split_lines content) e.

(** [process.env.X ?? process.env.T] *)
Definition either_var (e : Env) (x t : string) : option string :=
  match e !! x with
  | Some v => Some v
  | None => e !! t
  end.

(** [mode & 0o004], as a condition *)
Definition mode_world_bit (m : N) : bool := negb (N.land m 4 =? 0)%N.

Definition world_readable_warning (configPath : string) : string :=
  "⚠ " +:+ configPath +:+ " is world-readable. Run: chmod 600 " +:+ configPath.

Definition missing_if (v : option string) (name : string) : list string :=
  if negb (truthy_str v) then [name] else [].

(** The second half of [loadCredentials]: the five reads of
    [process.env], the test for missing credentials and the result. *)
Definition credentials_of_env (e : Env) : completion XCredentials :=
  let apiKey := either_var e "X_API_KEY" "TWITTER_API_KEY" in
  let apiSecret := either_var e "X_API_SECRET" "TWITTER_API_SECRET" in
  let accessToken := either_var e "X_ACCESS_TOKEN" "TWITTER_ACCESS_TOKEN" in
  let accessTokenSecret :=
    either_var e "X_ACCESS_TOKEN_SECRET" "TWITTER_ACCESS_TOKEN_SECRET" in
  let bearerToken := either_var e "X_BEARER_TOKEN" "TWITTER_BEARER_TOKEN" in
  if negb (truthy_str apiKey) || negb (truthy_str apiSecret)
     || negb (truthy_str accessToken) || negb (truthy_str accessTokenSecret)
  then
    let missing :=
      missing_if apiKey "X_API_KEY" ++ missing_if apiSecret "X_API_SECRET"
        ++ missing_if accessToken "X_ACCESS_TOKEN"
        ++ missing_if accessTokenSecret "X_ACCESS_TOKEN_SECRET" in
    Throw (Error ("Missing credentials: " +:+ join ", " missing +:+ newline
                    +:+ "Set them as environment variables or in .env / ~/.config/twx-cli/.env"))
  else
    Return {| apiKey := default EmptyString apiKey;
              apiSecret := default EmptyString apiSecret;
              accessToken := default EmptyString accessToken;
              accessTokenSecret := default EmptyString accessTokenSecret;
              bearerToken := bearerToken |}.

Section Config.
Context `{NodePath}.

Definition configPath (e : Env) : string :=
  path_resolve (default "~" (e !! "HOME")) ".config/twx-cli/.env".

(** The first half of [loadCredentials]: the warning, then the read of
    the config file, which nothing catches, and the merge of its content
    into [process.env], when the file exists. *)
Definition read_config (h : Host) : completion Env * list string :=
  let configPath := configPath (env h) in
  match files h configPath with
  | Some file =>
      let warned :=
        match mode file with
        | Some m => if mode_world_bit m then [world_readable_warning configPath] else []
        | None => []
        end in
      (match content file with
       | Return text => Return (merge_config text (env h))
       | Throw err => Throw err
       end, warned)
  | None => (Return (env h), [])
  end.

Definition loadCredentials (h : Host) : Loaded :=
  match read_config h with
  | (Return e, warned) =>
      {| outcome := credentials_of_env e; env_after := e; warnings := warned |}
  | (Throw err, warned) =>
      {| outcome := Throw err; env_after := env h; warnings := warned |}
  end.

(** The exception of the read of the config file, when the file exists
    and cannot be read. *)
Definition read_error (h : Host) : option exn :=
  match files h (configPath (env h)) with
  | Some file => match content file with Throw err => Some err | Return _ => None end
  | None => None
  end.

End Config.

(** *** Vocabulary for statements about credential loading *)

(** The four mandatory credentials, each with its two variables. *)
Definition mandatory : list (string * string) :=
  [("X_API_KEY", "TWITTER_API_KEY");
   ("X_API_SECRET", "TWITTER_API_SECRET");
   ("X_ACCESS_TOKEN", "TWITTER_ACCESS_TOKEN");
   ("X_ACCESS_TOKEN_SECRET", "TWITTER_ACCESS_TOKEN_SECRET")].

(** A variable that is not set, or is set to the empty string. *)
Definition blank (e : Env) (name : string) : bool := negb (truthy_str (e !! name)).

(** The credential is absent from both of its variables. *)
Definition absent_from_both (e : Env) (cred : string * string) : bool :=
  blank e cred.1 && blank e cred.2.

(** The credential is missing for the code: the variable it reads, the
    first one when that is set (to anything) and the second one otherwise,
    is blank. *)
Definition is_missing (e : Env) (cred : string * string) : bool :=
  negb (truthy_str (either_var e cred.1 cred.2)).

Definition missing_message (names : list string) : string :=
  "Missing credentials: " +:+ join ", " names +:+ newline
    +:+ "Set them as environment variables or in .env / ~/.config/twx-cli/.env".

(** Permission bits of a file mode. *)
Definition group_readable (m : N) : bool := N.testbit m 5.
Definition world_readable (m : N) : bool := N.testbit m 2.

Lemma merge_line_keeps (e : Env) (line k : string) :
  blank e k = false → merge_line e line !! k = e !! k.
Proof.
  unfold merge_line, blank. intros Hk.
  destruct (Regex.test comment_or_blank line); [done|].
  destruct (Regex.exec assignment line) as [caps|]; [|done].
  destruct (Regex.capture 1 caps) as [name|]; [|done].
  destruct (Regex.capture 2 caps) as [value|]; [|done].
  destruct (negb (truthy_str (e !! name))) eqn:Hn; [|done].
  rewrite lookup_insert_ne; [done|]. intros ->. congruence.
Qed.

Lemma merge_config_keeps (text : string) (e : Env) (k : string) :
  blank e k = false → merge_config text e !! k = e !! k.
Proof.
  unfold merge_config. revert e.
  induction (split_lines text) as [|line lines IH]; intros e Hk; [done|].
  cbn [fold_left]. rewrite IH.
  - by apply merge_line_keeps.
  - unfold blank in *. by rewrite merge_line_keeps.
Qed.

Lemma mode_world_bit_spec (m : N) : mode_world_bit m = world_readable m.
Proof.
  unfold mode_world_bit, world_readable.
  change 4%N with (2 ^ 2)%N.
  destruct (N.testbit m 2) eqn:Hb.
  - apply negb_true_iff, N.eqb_neq. intros Hz.
    assert (Ht : N.testbit (N.land m (2 ^ 2)) 2 = true)
      by (rewrite N.land_spec, Hb, N.pow2_bits_true; reflexivity).
    rewrite Hz in Ht. discriminate.
  - apply negb_false_iff, N.eqb_eq. apply N.bits_inj. intros i.
    rewrite N.land_spec, N.bits_0, N.pow2_bits_eqb.
    destruct (N.eqb_spec 2 i) as [<-|]; [by rewrite Hb | by rewrite andb_false_r].
Qed.

Lemma credentials_of_env_throws (e : Env) :
  is_throw (credentials_of_env e) = existsb (is_missing e) mandatory.
Proof.
  unfold credentials_of_env, mandatory, is_missing. cbn [existsb fst snd].
  rewrite orb_false_r, !orb_assoc.
  by destruct (_ || _ || _ || _).
Qed.

Lemma credentials_of_env_message (e : Env) :
  is_throw (credentials_of_env e) = true →
  credentials_of_env e
  = Throw (Error (missing_message (fst <$> filter (λ cred, is_missing e cred) mandatory))).
Proof.
  unfold credentials_of_env, mandatory, is_missing, missing_message, missing_if.
  destruct (_ || _ || _ || _); [intros _ | discriminate].
  do 3 f_equal. f_equal.
  rewrite !filter_cons, filter_nil. cbn [fst snd].
  repeat match goal with
    | |- context [negb (truthy_str ?v)] => destruct (negb (truthy_str v))
    end; reflexivity.
Qed.

Section ConfigFacts.
Context `{NodePath}.

(** C8, as the code has it. Loading fails with the error of the read,
    and leaves the environment as it was, when the config file exists and
    cannot be read. Otherwise it fails exactly when one of the four
    mandatory credentials is missing once the config file is merged, where
    a credential is read from its [X_] variable when that is set, even to
    the empty string, and from its [TWITTER_] variable otherwise, and is
    missing when what is read is unset or empty; the message names every
    missing credential. In every case the config file never replaces a
    variable of the environment that is set to a non-empty value. *)
Theorem loadCredentials_missing (h : Host) :
  (∀ err, read_error h = Some err →
          outcome (loadCredentials h) = Throw err
          ∧ env_after (loadCredentials h) = env h)
  ∧ (read_error h = None →
     is_throw (outcome (loadCredentials h))
       = existsb (is_missing (env_after (loadCredentials h))) mandatory
     ∧ (is_throw (outcome (loadCredentials h)) = true →
        outcome (loadCredentials h)
        = Throw (Error (missing_message
                          (fst <$> filter (λ cred,
                                             is_missing (env_after (loadCredentials h)) cred)
                                     mandatory)))))
  ∧ (∀ name, blank (env h) name = false →
             env_after (loadCredentials h) !! name = env h !! name).
Proof.
  unfold loadCredentials, read_config, read_error.
  destruct (files h (configPath (env h))) as [file|]; [destruct (content file) as [text|err0]|];
    cbn [outcome env_after].
  - split; [discriminate|]. split.
    + intros _. split; [apply credentials_of_env_throws | apply credentials_of_env_message].
    + intros name Hname. by apply merge_config_keeps.
  - split; [by intros err [= <-]|]. split; [discriminate | done].
  - split; [discriminate|]. split; [|done].
    intros _. split; [apply credentials_of_env_throws | apply credentials_of_env_message].
Qed.

(** C9, as the code has it. A warning is surfaced exactly when the config
    file exists and its mode has the world-readable bit; a file readable by
    its owner only, or by its owner and its group only, gives no warning.
    The warning is not fatal: the outcome and the environment left by the
    load are those of the environment and of what reading the file gives,
    whatever the mode says and whether or not the warning was given. *)
Theorem loadCredentials_warning (h : Host) :
  warnings (loadCredentials h)
    = match files h (configPath (env h)) with
      | Some file =>
          match mode file with
          | Some m =>
              if world_readable m
              then [world_readable_warning (configPath (env h))] else []
          | None => []
          end
      | None => []
      end
  ∧ ∀ h', env h' = env h →
          content <$> files h' (configPath (env h)) = content <$> files h (configPath (env h)) →
          outcome (loadCredentials h') = outcome (loadCredentials h)
          ∧ env_after (loadCredentials h') = env_after (loadCredentials h).
Proof.
  split.
  - unfold loadCredentials, read_config.
    destruct (files h (configPath (env h))) as [file|]; [|done].
    destruct (content file), (mode file) as [m|]; cbn [warnings];
      by rewrite ?mode_world_bit_spec.
  - intros h' Henv Hread. unfold loadCredentials, read_config. rewrite Henv.
    destruct (files h' (configPath (env h))) as [file'|],
             (files h (configPath (env h))) as [file|]; cbn in Hread; try discriminate.
    + injection Hread as ->. by destruct (content file).
    + done.
Qed.

End ConfigFacts.

(** ** A scripted platform, for running the client on concrete exchanges *)

Module Demo.

Definition quote : string := String "034" EmptyString.

(** The bodies the scripted server sends. *)
Definition body_empty_data : string := "{" +:+ quote +:+ "data" +:+ quote +:+ ":{}}".
Definition body_not_liked : string :=
  "{" +:+ quote +:+ "data" +:+ quote +:+ ":{" +:+ quote +:+ "liked" +:+ quote +:+ ":false}}".
Definition body_id_1 : string :=
  "{" +:+ quote +:+ "data" +:+ quote +:+ ":{" +:+ quote +:+ "id" +:+ quote +:+ ":"
    +:+ quote +:+ "1" +:+ quote +:+ "}}".
Definition body_no_data : string := "{}".
Definition body_problem : string :=
  "{" +:+ quote +:+ "title" +:+ quote +:+ ":" +:+ quote +:+ "Forbidden" +:+ quote +:+ "}".

(** [JSON.parse] on the bodies above; the other texts that the examples
    use (the empty text, plain words) are not JSON. *)
Definition parse_table (s : string) : option JSON :=
  if String.eqb s body_empty_data then Some (JObject [("data", JObject [])])
  else if String.eqb s body_not_liked
  then Some (JObject [("data", JObject [("liked", JBool false)])])
  else if String.eqb s body_id_1
  then Some (JObject [("data", JObject [("id", JString "1")])])
  else if String.eqb s body_no_data then Some (JObject [])
  else if String.eqb s body_problem then Some (JObject [("title", JString "Forbidden")])
  else None.

#[local] Instance builtins : Builtins := {|
  JSON_parse := parse_table;
  JSON_stringify := λ _, "<json>";
  ToString_composite := λ _, "<value>";
  seconds_toFixed1 := λ ms, pretty (ms `div` 1000) +:+ "." +:+ pretty ((ms `mod` 1000) `div` 100);
|}.

(** A stand-in for the signing library: it shows which of its arguments
    reach the header. *)
#[local] Instance oauth_library : OAuthLibrary := {|
  oauth_data := string;
  oauth_authorize := λ o rd t nonce timestamp,
    hash_function o
      (rd_method rd +:+ "&" +:+ rd_url rd +:+ "&" +:+ nonce +:+ "&" +:+ pretty timestamp)
      (secret (consumer o) +:+ "&" +:+ secret t);
  oauth_toHeader := λ d, "OAuth " +:+ d;
  hmac_sha1_base64 := λ k b, "hmac(" +:+ k +:+ "," +:+ b +:+ ")";
|}.

Definition json (st : N) (body : string) : completion Response :=
  Return {| status := st; headers := []; text := body |}.

(** The scripted server. The profile endpoint throttles the first two
    attempts, with resets one and two seconds ahead; the search endpoint
    throttles every attempt. *)
Definition server (t : list Event) (now : Z) (req : Request) : completion Response :=
  let url := req_url req in
  if String.eqb url (BASE_URL +:+ "/tweets/123") then json 200 body_empty_data
  else if String.eqb url (BASE_URL +:+ "/tweets/204") then json 204 EmptyString
  else if String.eqb url (BASE_URL +:+ "/users/7/likes/9") then json 200 body_not_liked
  else if String.eqb url (BASE_URL +:+ "/tweets") then json 200 body_no_data
  else if String.eqb url (BASE_URL +:+ "/users/by/username/ghost?" +:+ user_fields)
  then json 200 body_empty_data
  else if String.eqb url (BASE_URL +:+ "/users/me?" +:+ user_fields) then
    if (attempts t <? 2)%nat
    then Return {| status := 429;
                   headers := [("x-rate-limit-reset",
                                pretty (now `div` 1000 + 1 + Z.of_nat (attempts t)))];
                   text := "Too Many Requests" |}
    else json 200 body_id_1
  else if String.prefix (BASE_URL +:+ "/tweets/search/recent?") url
  then json 429 "Too Many Requests"
  else json 403 body_problem.

#[local] Instance outside : Outside := {|
  remote := server;
  nonce_source := λ n, "nonce" +:+ pretty n;
  timer_lateness := λ _ _ _, 0;
|}.

#[local] Instance node_path : NodePath := {|
  path_resolve := λ dir file, dir +:+ "/" +:+ file;
|}.

Definition client : XClient :=
  new_XClient
    {| apiKey := "ck"; apiSecret := "cs"; accessToken := "tk"; accessTokenSecret := "ts";
       bearerToken := None |}
    {| onRateLimit := true |}.

Definition world : World := {| clock := 1700000000000; entropy := 0; trace := [] |}.

(** Section 8: two throttled attempts, then success: two waits, two
    notifications, and the entity of the third response. *)
Example two_backoffs_then_success :
  (me client world).1 = Return (JObject [("id", JString "1")])
  ∧ filter (λ e, negb (is_fetch e)) (trace (me client world).2)
    = [Notified "Rate limited by X API. Waiting 1.0s before retry 1/2."; Slept 1000;
       Notified "Rate limited by X API. Waiting 2.0s before retry 2/2."; Slept 2000]
  ∧ attempts (trace (me client world).2) = 3%nat.
Proof. vm_compute. auto. Qed.

(** A third 429 is not retried: it goes to the normalizer. *)
Example third_429_is_final :
  (searchRecent client "foo" (Some 3) None world).1
    = Throw (Error "X API error 429: Too Many Requests")
  ∧ attempts (trace (searchRecent client "foo" (Some 3) None world).2) = 3%nat
  ∧ retries (trace (searchRecent client "foo" (Some 3) None world).2) = 2%nat.
Proof. vm_compute. auto. Qed.

(** A deletion acknowledged with an empty body is a success. *)
Example deletePost_empty_body : (deletePost client "204" world).1 = Return false.
Proof. reflexivity. Qed.

(** Section 8: the boolean read from an envelope without the member. *)
Example deletePost_no_member : (deletePost client "123" world).1 = Return false.
Proof. reflexivity. Qed.

Lemma parseResponse_empty_success_witness :
  parseResponse {| status := 204; headers := []; text := EmptyString |}
  = Return (JObject []).
Proof. apply parseResponse_empty_success; reflexivity. Defined.

Lemma parseResponse_error_witness :
  parseResponse {| status := 503; headers := []; text := "Service Unavailable" |}
  = Throw (Error "X API error 503: Service Unavailable").
Proof.
  exact (proj1 (parseResponse_error
                  {| status := 503; headers := []; text := "Service Unavailable" |})
           eq_refl).
Defined.

Lemma authorization_body_independent_witness :
  req_headers (build_request client POST (BASE_URL +:+ "/tweets")
                 (Some (createPost_body "hello" None)) world).1
  = req_headers (build_request client POST (BASE_URL +:+ "/tweets")
                   (Some (createPost_body "bye" None)) world).1.
Proof.
  exact (proj1 (authorization_body_independent client POST (BASE_URL +:+ "/tweets")
                  (Some (createPost_body "hello" None))
                  (Some (createPost_body "bye" None)) world)).
Defined.


Lemma entity_methods_need_data_witness :
  (createPost client "hello" None world).1
  = Throw (Error "X API returned no post data.").
Proof.
  exact (proj1 (proj2 (proj2 (proj1 (entity_methods_need_data client world "hello" "jack"
                                       None))))
           (JObject []) eq_refl ltac:(discriminate) eq_refl).
Defined.

(** C10, as stated, fails: a 2xx response whose envelope has a [data]
    member that is an empty object makes [getUser] return that empty
    object, which carries none of the members of a user. *)
Lemma getUser_returns_empty_entity :
  remote [] (clock world)
    (build_request client GET
       (BASE_URL +:+ "/users/by/username/ghost?" +:+ user_fields) None world).1
    = json 200 body_empty_data
  ∧ JSON_parse body_empty_data = Some (JObject [("data", JObject [])])
  ∧ (getUser client "ghost" world).1 = Return (JObject [])
  ∧ has_members XUser_members (JObject []) = false.
Proof. vm_compute. auto. Qed.

(** The environment wins over the file, and the file fills what is unset. *)
Definition host_with_file : Host :=
  {| env := <["HOME" := "/home/u"]> (<["X_API_KEY" := "from-env"]> ∅);
     files := λ p,
       if String.eqb p "/home/u/.config/twx-cli/.env"
       then Some {| mode := Some 33188%N;
                    content := Return ("# keys" +:+ newline
                                         +:+ "X_API_KEY=from-file" +:+ newline
                                         +:+ "X_API_SECRET = s3  # secret" +:+ newline
                                         +:+ "TWITTER_ACCESS_TOKEN=tok" +:+ newline) |}
       else None |}.

Lemma loadCredentials_missing_witness :
  env_after (loadCredentials host_with_file) !! "X_API_KEY" = Some "from-env".
Proof.
  exact (proj2 (proj2 (loadCredentials_missing host_with_file)) "X_API_KEY" eq_refl).
Defined.

Example loadCredentials_names_all_missing :
  outcome (loadCredentials host_with_file)
  = Throw (Error (missing_message ["X_ACCESS_TOKEN_SECRET"]))
  ∧ env_after (loadCredentials host_with_file) !! "X_API_SECRET" = Some "s3"
  ∧ warnings (loadCredentials host_with_file)
    = [world_readable_warning "/home/u/.config/twx-cli/.env"].
Proof. vm_compute. auto. Qed.

(** An environment in which [X_API_KEY] and [X_API_SECRET] are set to the
    empty string, beside a config file (mode 0o100600) that gives the
    secret. *)
Definition host_blank_x : Host :=
  {| env := <["HOME" := "/home/u"]>
              (<["X_API_KEY" := EmptyString]>
                 (<["TWITTER_API_KEY" := "key"]>
                    (<["X_API_SECRET" := EmptyString]>
                       (<["X_ACCESS_TOKEN" := "token"]>
                          (<["X_ACCESS_TOKEN_SECRET" := "token-secret"]> ∅)))));
     files := λ p,
       if String.eqb p "/home/u/.config/twx-cli/.env"
       then Some {| mode := Some 33152%N;
                    content := Return ("X_API_SECRET=from-file" +:+ newline) |}
       else None |}.

(** C8, as stated, fails: loading fails although no credential is absent
    from both of its variables (the empty [X_API_KEY] hides
    [TWITTER_API_KEY]); and the config file has replaced a variable that
    the environment had set, to the empty string. *)
Lemma loadCredentials_fails_with_both_present :
  outcome (loadCredentials host_blank_x) = Throw (Error (missing_message ["X_API_KEY"]))
  ∧ existsb (absent_from_both (env_after (loadCredentials host_blank_x))) mandatory = false
  ∧ env_after (loadCredentials host_blank_x) !! "TWITTER_API_KEY" = Some "key"
  ∧ env host_blank_x !! "X_API_SECRET" = Some EmptyString
  ∧ env_after (loadCredentials host_blank_x) !! "X_API_SECRET" = Some "from-file".
Proof. vm_compute. auto 10. Qed.

(** Every credential is in the environment, and the config path holds a
    directory (mode 0o040755), which [readFileSync] refuses. *)
Definition host_directory : Host :=
  {| env := <["HOME" := "/home/u"]>
              (<["X_API_KEY" := "key"]>
                 (<["X_API_SECRET" := "secret"]>
                    (<["X_ACCESS_TOKEN" := "token"]>
                       (<["X_ACCESS_TOKEN_SECRET" := "token-secret"]> ∅))));
     files := λ p,
       if String.eqb p "/home/u/.config/twx-cli/.env"
       then Some {| mode := Some 16877%N;
                    content := Throw (Error "EISDIR: illegal operation on a directory, read") |}
       else None |}.

(** The read is not caught: loading fails with its error, after the
    warning, although no credential is missing. *)
Example loadCredentials_unreadable_file :
  existsb (is_missing (env host_directory)) mandatory = false
  ∧ outcome (loadCredentials host_directory)
    = Throw (Error "EISDIR: illegal operation on a directory, read")
  ∧ env_after (loadCredentials host_directory) = env host_directory
  ∧ warnings (loadCredentials host_directory)
    = [world_readable_warning "/home/u/.config/twx-cli/.env"].
Proof. vm_compute. auto. Qed.

(** A config file that its group can read and the world cannot (mode
    0o100640). *)
Definition host_group_readable : Host :=
  {| env := <["HOME" := "/home/u"]> ∅;
     files := λ p,
       if String.eqb p "/home/u/.config/twx-cli/.env"
       then Some {| mode := Some 33184%N; content := Return ("X_API_KEY=k" +:+ newline) |}
       else None |}.

(** C9, as stated, fails: a group-readable config file gives no warning. *)
Lemma group_readable_gives_no_warning :
  (mode <$> files host_group_readable (configPath (env host_group_readable)))
    = Some (Some 33184%N)
  ∧ group_readable 33184 = true
  ∧ warnings (loadCredentials host_group_readable) = [].
Proof. vm_compute. auto. Qed.

(** The same environment and the same file, readable by its owner only
    (mode 0o100600). *)
Definition host_with_private_file : Host :=
  {| env := env host_with_file;
     files := λ p, (λ f, {| mode := Some 33152%N; content := content f |})
                     <$> files host_with_file p |}.

Lemma loadCredentials_warning_witness :
  warnings (loadCredentials host_with_file)
    = [world_readable_warning "/home/u/.config/twx-cli/.env"]
  ∧ outcome (loadCredentials host_with_private_file)
    = outcome (loadCredentials host_with_file).
Proof.
  split.
  - exact (proj1 (loadCredentials_warning host_with_file)).
  - exact (proj1 (proj2 (loadCredentials_warning host_with_file)
                    host_with_private_file eq_refl eq_refl)).
Defined.

End Demo.

(** * Further properties of the client *)

(** ** The executor: backoff, signing, notifications, results *)

(** The requests, the notification messages and the waits recorded in a
    stretch of trace, in order. *)
Definition sent (t : list Event) : list Request :=
  omap (λ e, match e with Fetched req _ => Some req | _ => None end) t.
Definition notices (t : list Event) : list string :=
  omap (λ e, match e with Notified message => Some message | _ => None end) t.
Definition waits (t : list Event) : list Z :=
  omap (λ e, match e with Slept ms => Some ms | _ => None end) t.

Section ExecutorMore.
Context `{Builtins} `{OAuthLibrary} `{Outside}.

Lemma notify_clock (c : XClient) (message : string) (w : World) :
  clock (notify c message w) = clock w ∧ entropy (notify c message w) = entropy w.
Proof. unfold notify. by destruct (onRateLimit (options c)). Qed.

Lemma backoff_entropy (c : XClient) (res : Response) (n : Z) (w : World) :
  entropy (backoff c res n w) = entropy w.
Proof. unfold backoff, sleep. cbn [entropy]. apply notify_clock. Qed.

(** The wait that [backoff] asks of [sleep], and the time it takes. *)
Lemma backoff_clock (c : XClient) (res : Response) (n : Z) (w : World) :
  ∃ t, let ms := getRateLimitWaitMs (headers_get res "x-rate-limit-reset") (clock w) in
       0 <= ms
       ∧ clock (backoff c res n w)
         = if ms <=? 0 then clock w
           else clock w + timer_delay ms + timer_lateness t (clock w) ms.
Proof.
  unfold backoff, sleep. cbn [clock].
  set (ms := getRateLimitWaitMs (headers_get res "x-rate-limit-reset") (clock w)).
  destruct (notify_clock c (rate_limit_message ms n) w) as [-> _].
  exists (trace (notify c (rate_limit_message ms n) w)). cbn zeta.
  split; [|done].
  subst ms. rewrite getRateLimitWaitMs_refines.
  unfold backoff_wait_spec; destruct (_ ≫= _); lia.
Qed.

Lemma timer_delay_spec (ms : Z) :
  (1 <= ms <= TIMEOUT_MAX → timer_delay ms = ms)
  ∧ (TIMEOUT_MAX < ms → timer_delay ms = 1).
Proof.
  unfold timer_delay, TIMEOUT_MAX.
  destruct (Z.leb_spec 1 ms), (Z.leb_spec ms 2147483647); cbn; lia.
Qed.

(** X1. When no timer fires early: after the backoff for a throttled
    response whose reset header parses, and whose reset instant is at most
    2^31-1 ms ahead, the clock has reached the reset instant, so that the
    wait computed again from the same header is zero; without a usable
    header the clock has moved on by the default second at least. A reset
    that is more than 2^31-1 ms ahead is not waited for, whatever the
    timers do: the timer is set for one millisecond. *)
Theorem backoff_reaches_reset (c : XClient) (res : Response) (n : Z) (w : World) :
  ((∀ t now ms, 0 <= timer_lateness t now ms) →
   (∀ h R,
      headers_get res "x-rate-limit-reset" = Some h → parseInt h = Some R →
      reset_instant_spec R - clock w <= TIMEOUT_MAX →
      Z.max (clock w) (reset_instant_spec R) <= clock (backoff c res n w)
      ∧ getRateLimitWaitMs (Some h) (clock (backoff c res n w)) = 0)
   ∧ (headers_get res "x-rate-limit-reset" ≫= parseInt = None →
      clock w + DEFAULT_RATE_LIMIT_WAIT_MS <= clock (backoff c res n w)))
  ∧ (∀ h R,
       headers_get res "x-rate-limit-reset" = Some h → parseInt h = Some R →
       TIMEOUT_MAX < reset_instant_spec R - clock w →
       ∃ t, clock (backoff c res n w)
            = clock w + 1 + timer_lateness t (clock w) (reset_instant_spec R - clock w)).
Proof.
  destruct (backoff_clock c res n w) as (t & Hms & Hclock). cbn zeta in *.
  rewrite getRateLimitWaitMs_refines in Hms, Hclock. unfold backoff_wait_spec in *.
  split; [intros Hlate; split|].
  - intros h R Hh Hp Hnear. rewrite Hh in Hms, Hclock. cbn [mbind option_bind] in *.
    rewrite Hp in Hms, Hclock.
    rewrite getRateLimitWaitMs_refines. unfold backoff_wait_spec.
    cbn [mbind option_bind]. rewrite Hp.
    specialize (Hlate t (clock w) (Z.max (reset_instant_spec R - clock w) 0)).
    destruct (Z.leb_spec (Z.max (reset_instant_spec R - clock w) 0) 0) as [Hle|Hgt].
    + rewrite Hclock. lia.
    + rewrite (proj1 (timer_delay_spec _)) in Hclock by lia. lia.
  - intros Hnone. rewrite Hnone in Hclock.
    specialize (Hlate t (clock w) 1000). unfold DEFAULT_RATE_LIMIT_WAIT_MS.
    change (1000 <=? 0) with false in Hclock.
    change (timer_delay 1000) with 1000 in Hclock. cbv iota in Hclock. lia.
  - intros h R Hh Hp Hfar. rewrite Hh in Hclock. cbn [mbind option_bind] in Hclock.
    rewrite Hp in Hclock. unfold TIMEOUT_MAX in Hfar.
    replace (Z.max (reset_instant_spec R - clock w) 0)
      with (reset_instant_spec R - clock w) in Hclock by lia.
    destruct (Z.leb_spec (reset_instant_spec R - clock w) 0) as [Hle|Hgt]; [lia|].
    rewrite (proj2 (timer_delay_spec _)) in Hclock by (unfold TIMEOUT_MAX; lia).
    by exists t.
Qed.

Lemma backoff_log_sent (c : XClient) (n : Z) (wait : list Event) :
  backoff_log c n wait → sent wait = [].
Proof. by destruct 1. Qed.

Lemma sent_app (t1 t2 : list Event) : sent (t1 ++ t2) = sent t1 ++ sent t2.
Proof. apply omap_app. Qed.

Lemma send_facts (c : XClient) method url body (w : World) :
  trace (send c method url body w).2
    = trace w ++ [Fetched (build_request c method url body w).1 (send c method url body w).1]
  ∧ entropy (send c method url body w).2 = S (entropy w)
  ∧ clock (send c method url body w).2 = clock w
  ∧ req_headers (build_request c method url body w).1
    = [("Authorization",
        authorization c method url (nonce_source (entropy w)) (clock w `div` 1000));
       ("Content-Type", "application/json")].
Proof. done. Qed.

Lemma request_draws (c : XClient) method url body (n : Z) (w : World) :
  ∃ new, trace (request c method url body n w).2 = trace w ++ new
         ∧ entropy (request c method url body n w).2 = (entropy w + length (sent new))%nat
         ∧ ∀ k req, sent new !! k = Some req →
             ∃ timestamp,
               req_headers req
               = [("Authorization",
                   authorization c method url (nonce_source (entropy w + k)) timestamp);
                  ("Content-Type", "application/json")].
Proof.
  remember (Z.to_nat (MAX_RATE_LIMIT_RETRIES - n)) as fuel eqn:Hfuel.
  revert n w Hfuel.
  induction (lt_wf fuel) as [fuel _ IH]. intros n w ->.
  rewrite request_step.
  destruct (send_facts c method url body w) as (Htr & Hent & _ & Hhead).
  set (req := (build_request c method url body w).1) in *.
  assert (Hfirst : ∀ k r, (req :: @nil Request) !! k = Some r →
            ∃ timestamp, req_headers r
              = [("Authorization",
                  authorization c method url (nonce_source (entropy w + k)) timestamp);
                 ("Content-Type", "application/json")]).
  { intros [|k] r [= <-]. rewrite Nat.add_0_r. by eexists. }
  destruct (send c method url body w) as [[res|e] w1]; cbn [fst snd] in *.
  - destruct (should_retry res n) eqn:Hr.
    + apply should_retry_spec in Hr as [H429 Hlt].
      destruct (backoff_trace c res n w1) as (wait & Hwait & Hbt).
      destruct (IH (Z.to_nat (MAX_RATE_LIMIT_RETRIES - (n + 1)))
                  ltac:(unfold MAX_RATE_LIMIT_RETRIES in *; lia)
                  (n + 1) (backoff c res n w1) eq_refl) as (rest & Hrest & Hent' & Hnonce).
      exists (Fetched req (Return res) :: wait ++ rest).
      rewrite backoff_entropy in Hent', Hnonce.
      change (sent (Fetched req (Return res) :: wait ++ rest))
        with (req :: sent (wait ++ rest)).
      rewrite sent_app, (backoff_log_sent _ _ _ Hwait). cbn [app].
      split; [|split].
      * rewrite Hrest, Hbt, Htr. by rewrite <- !app_assoc.
      * rewrite Hent', Hent. cbn [length]. lia.
      * intros [|k] r Hk; [by apply (Hfirst 0%nat)|].
        cbn in Hk. apply Hnonce in Hk as [ts Hk]. exists ts. rewrite Hk, Hent.
        by replace (S (entropy w) + k)%nat with (entropy w + S k)%nat by lia.
    + exists [Fetched req (Return res)]. cbn [fst snd].
      split; [done|]. split; [rewrite Hent; cbn; lia | exact Hfirst].
  - exists [Fetched req (Throw e)]. cbn [fst snd].
    split; [done|]. split; [rewrite Hent; cbn; lia | exact Hfirst].
Qed.

(** X2. Every attempt of a call is signed with a draw of its own from the
    nonce source: the k-th request of the call carries the header made
    from draw number [entropy w + k], and the call uses up exactly as many
    draws as it sends requests. No signature is used twice. *)
Theorem request_signs_each_attempt_afresh (c : XClient) (method : RequestMethod)
    (url : string) (body : option JSON) (w : World) :
  ∃ new : list Event,
    trace (request c method url body 0 w).2 = trace w ++ new
    ∧ entropy (request c method url body 0 w).2 = (entropy w + length (sent new))%nat
    ∧ ∀ k req, sent new !! k = Some req →
        ∃ timestamp,
          req_headers req
          = [("Authorization",
              authorization c method url (nonce_source (entropy w + k)) timestamp);
             ("Content-Type", "application/json")].
Proof. apply request_draws. Qed.

Lemma notices_app (t1 t2 : list Event) : notices (t1 ++ t2) = notices t1 ++ notices t2.
Proof. apply omap_app. Qed.

Lemma waits_app (t1 t2 : list Event) : waits (t1 ++ t2) = waits t1 ++ waits t2.
Proof. apply omap_app. Qed.

Lemma exchange_notices (c : XClient) method url body (n : Z) (t : list Event) out :
  exchange c method url body n t out →
  notices t
  = (if onRateLimit (options c)
     then imap (λ i ms, rate_limit_message ms (n + Z.of_nat i)) (waits t)
     else [])
  ∧ Forall (λ ms, 0 <= ms) (waits t).
Proof.
  induction 1 as [n req e _|n req res _ _|n req res wait rest out _ _ _ Hw _ [IHn IHw]].
  - by destruct (onRateLimit (options c)).
  - by destruct (onRateLimit (options c)).
  - change (Fetched req (Return res) :: wait ++ rest)
      with ([Fetched req (Return res)] ++ wait ++ rest).
    rewrite !notices_app, !waits_app.
    change (notices [Fetched req (Return res)]) with (@nil string).
    change (waits [Fetched req (Return res)]) with (@nil Z).
    cbn [app].
    assert (Hshift : imap ((λ i ms, rate_limit_message ms (n + Z.of_nat i)) ∘ S) (waits rest)
                     = imap (λ i ms, rate_limit_message ms (n + 1 + Z.of_nat i)) (waits rest)).
    { apply imap_ext. intros i ms _. cbn. f_equal. lia. }
    destruct Hw as [ms Hhook Hms|ms Hhook Hms]; rewrite Hhook in *.
    + change (notices [Slept ms]) with (@nil string).
      change (waits [Slept ms]) with [ms]. cbn [app].
      split; [exact IHn|]. by constructor.
    + change (notices [Notified (rate_limit_message ms n); Slept ms])
        with [rate_limit_message ms n].
      change (waits [Notified (rate_limit_message ms n); Slept ms]) with [ms].
      cbn [app imap]. rewrite Z.add_0_r, Hshift, IHn.
      split; [done|]. by constructor.
Qed.

Lemma waits_length (t : list Event) : length (waits t) = retries t.
Proof.
  unfold retries. induction t as [|e t IH]; [done|].
  rewrite filter_cons. destruct e; simpl; first [exact IH | f_equal; exact IH].
Qed.

(** X3. The notification hook, when installed, is called once before every
    wait, with the message that names that wait and the counters [i+1]/2;
    without the hook there is no notification. No wait is negative. *)
Theorem request_notifies_each_wait (c : XClient) (method : RequestMethod)
    (url : string) (body : option JSON) (w : World) :
  ∃ new : list Event,
    trace (request c method url body 0 w).2 = trace w ++ new
    ∧ notices new
      = (if onRateLimit (options c)
         then imap (λ i ms, rate_limit_message ms (Z.of_nat i)) (waits new)
         else [])
    ∧ Forall (λ ms, 0 <= ms) (waits new)
    ∧ length (waits new) = retries new.
Proof.
  destruct (request_exchange c method url body 0 w) as (new & Htr & Hex).
  exists new. split; [done|].
  destruct (exchange_notices _ _ _ _ _ _ _ Hex) as [Hn Hw].
  split; [exact Hn|]. split; [exact Hw|]. apply waits_length.
Qed.

Lemma request_one_attempt (c : XClient) method url body (n : Z) (w w1 : World)
    (r : completion Response) :
  send c method url body w = (r, w1) →
  (∀ res, r = Return res → status res ≠ 429%N) →
  request c method url body n w = (r ≫= parseResponse, w1).
Proof.
  intros Hsend Hstatus. rewrite request_step, Hsend.
  destruct r as [res|e]; [|done].
  assert (Hr : should_retry res n = false).
  { apply not_true_is_false. rewrite should_retry_spec. intros [H429 _].
    by apply (Hstatus res). }
  by rewrite Hr.
Qed.

(** X4. Only a 429 is retried: when the first response has any other
    status (a 5xx too), or the network fails, the call makes that one
    attempt, waits for nothing and ends with what the normalizer makes of
    the response, or with the network error as it is. *)
Theorem request_single_attempt (c : XClient) (method : RequestMethod) (url : string)
    (body : option JSON) (n : Z) (w w1 : World) (r : completion Response) :
  send c method url body w = (r, w1) →
  (∀ res, r = Return res → status res ≠ 429%N) →
  request c method url body n w = (r ≫= parseResponse, w1)
  ∧ ∃ req, trace w1 = trace w ++ [Fetched req r].
Proof.
  intros Hsend Hstatus. split; [by apply request_one_attempt|].
  destruct (send_trace c method url body w) as (req & _ & Htr).
  rewrite Hsend in Htr. by exists req.
Qed.

Lemma exchange_last (c : XClient) method url body (n : Z) (t : list Event) out :
  exchange c method url body n t out →
  (∃ req res, last t = Some (Fetched req (Return res)) ∧ out = parseResponse res)
  ∨ (∃ req e, last t = Some (Fetched req (Throw e)) ∧ out = Throw e).
Proof.
  induction 1 as [n req e _|n req res _ _|n req res wait rest out _ _ _ _ _ IH].
  - right. by exists req, e.
  - left. by exists req, res.
  - assert (Hlast : last (Fetched req (Return res) :: wait ++ rest) = last rest).
    { destruct IH as [(r' & x' & Hl & _)|(r' & x' & Hl & _)];
        rewrite last_cons, last_app, Hl; done. }
    by rewrite Hlast.
Qed.

Lemma parseResponse_returns (res : Response) (v : JSON) :
  parseResponse res = Return v →
  ok res = true ∧ v = default (JObject []) (JSON_parse (text res)).
Proof.
  destruct (ok res) eqn:Hok.
  - rewrite parseResponse_ok by done. by intros [= <-].
  - by rewrite parseResponse_not_ok.
Qed.

(** X5. A value returned by the executor always comes from the last
    response of the call, which has a 2xx status: it is the parsed body of
    that response, or the empty envelope when the body is not JSON. A
    response that is still a 429 after the retries is never returned as a
    value. *)
Theorem request_returns_from_success (c : XClient) (method : RequestMethod)
    (url : string) (body : option JSON) (w : World) (v : JSON) :
  (request c method url body 0 w).1 = Return v →
  ∃ new req res,
    trace (request c method url body 0 w).2 = trace w ++ new
    ∧ last new = Some (Fetched req (Return res))
    ∧ ok res = true
    ∧ status res ≠ 429%N
    ∧ v = default (JObject []) (JSON_parse (text res)).
Proof.
  intros Hv.
  destruct (request_exchange c method url body 0 w) as (new & Htr & Hex).
  apply exchange_last in Hex as [(req & res & Hl & Hout)|(req & e & _ & Hout)];
    rewrite Hv in Hout; [|discriminate].
  symmetry in Hout. apply parseResponse_returns in Hout as [Hok ->].
  exists new, req, res. repeat split; try done.
  intros H429. unfold ok in Hok. rewrite H429 in Hok. discriminate.
Qed.

End ExecutorMore.

(** ** Reading a decimal reset header *)

Lemma pretty_N_char_digit (m : N) :
  (m < 10)%N →
  is_digit (pretty_N_char m) = true ∧ digit_value (pretty_N_char m) = Z.of_N m.
Proof.
  intros Hm.
  assert (m = 0 ∨ m = 1 ∨ m = 2 ∨ m = 3 ∨ m = 4 ∨ m = 5 ∨ m = 6 ∨ m = 7 ∨ m = 8 ∨ m = 9)%N
    as Hcases by lia.
  repeat (destruct Hcases as [->|Hcases]; [by vm_compute|]). subst m. by vm_compute.
Qed.

Lemma pretty_N_go_app (x : N) (s : string) :
  pretty_N_go x s = pretty_N_go x EmptyString +:+ s.
Proof.
  revert s. induction (N.lt_wf_0 x) as [x _ IH]. intros s.
  destruct (decide (0 < x)%N) as [Hx|Hx].
  - rewrite !(pretty_N_go_step x) by done.
    rewrite (IH (x `div` 10)%N) by (by apply N.div_lt).
    rewrite (IH (x `div` 10)%N ltac:(by apply N.div_lt) (String _ EmptyString)).
    by rewrite string_app_assoc.
  - assert (x = 0%N) as -> by lia. by rewrite !pretty_N_go_0.
Qed.

Lemma leading_digits_pretty (x : N) (r : string) :
  (0 < x)%N →
  leading_digits None (pretty_N_go x EmptyString +:+ r)
  = leading_digits (Some (Z.of_N x)) r.
Proof.
  revert r. induction (N.lt_wf_0 x) as [x _ IH]. intros r Hx.
  rewrite pretty_N_go_step, pretty_N_go_app, string_app_assoc by done.
  destruct (pretty_N_char_digit (x `mod` 10)%N) as [Hd Hv];
    [by apply N.mod_lt|].
  change (String (pretty_N_char (x `mod` 10)) EmptyString +:+ r)
    with (String (pretty_N_char (x `mod` 10)) r).
  assert (Hdm : Z.of_N x = 10 * Z.of_N (x `div` 10) + Z.of_N (x `mod` 10)).
  { rewrite (N.div_mod x 10 ltac:(done)) at 1.
    by rewrite N2Z.inj_add, N2Z.inj_mul. }
  destruct (decide (0 < x `div` 10)%N) as [Hq|Hq].
  - rewrite IH by (done || by apply N.div_lt).
    cbn [leading_digits]. rewrite Hd, Hv. cbn [default from_option id].
    by rewrite Hdm.
  - assert (x `div` 10 = 0)%N as Hz by (destruct (x `div` 10)%N; [done|lia]).
    rewrite Hz in *. rewrite pretty_N_go_0.
    change (EmptyString +:+ ?s) with s.
    cbn [leading_digits]. rewrite Hd, Hv. cbn [default from_option id].
    by rewrite Hdm.
Qed.

Lemma pretty_N_go_head (x : N) :
  (0 < x)%N → ∃ c t, pretty_N_go x EmptyString = String c t ∧ is_digit c = true.
Proof.
  induction (N.lt_wf_0 x) as [x _ IH]. intros Hx.
  rewrite pretty_N_go_step, pretty_N_go_app by done.
  destruct (decide (0 < x `div` 10)%N) as [Hq|Hq].
  - destruct (IH (x `div` 10)%N ltac:(by apply N.div_lt) Hq) as (c & t & -> & Hc).
    by exists c, (t +:+ String (pretty_N_char (x `mod` 10)) EmptyString).
  - assert (x `div` 10 = 0)%N as -> by (destruct (x `div` 10)%N; [done|lia]).
    rewrite pretty_N_go_0.
    exists (pretty_N_char (x `mod` 10)), EmptyString.
    split; [done|]. by apply pretty_N_char_digit, N.mod_lt.
Qed.

Lemma parseInt_digit_first (c : ascii) (t : string) :
  is_digit c = true →
  parseInt (String c t) = leading_digits None (String c t).
Proof.
  intros Hc. unfold parseInt.
  assert (Hs : is_space c = false ∧ c ≠ "-"%char ∧ c ≠ "+"%char).
  { destruct c as [[] [] [] [] [] [] [] []]; try discriminate Hc; by vm_compute. }
  destruct Hs as (Hs & Hm & Hp). cbn [trim_start]. rewrite Hs.
  assert (Hmatch : match String c t with
                   | String "-" r => (-1, r)
                   | String "+" r => (1, r)
                   | _ => (1, String c t)
                   end = (1, String c t)).
  { destruct c as [[] [] [] [] [] [] [] []]; try reflexivity; congruence. }
  rewrite Hmatch.
  destruct (leading_digits None (String c t)) as [m|]; [|done].
  f_equal. lia.
Qed.

Lemma parseInt_pretty_pos (p : positive) : parseInt (pretty (Z.pos p)) = Some (Z.pos p).
Proof.
  change (pretty (Z.pos p)) with (pretty_N_go (N.pos p) EmptyString).
  destruct (pretty_N_go_head (N.pos p) ltac:(lia)) as (c & t & Heq & Hc).
  rewrite Heq, parseInt_digit_first by done. rewrite <- Heq.
  rewrite <- (string_app_nil_r (pretty_N_go (N.pos p) EmptyString)).
  by rewrite leading_digits_pretty by lia.
Qed.

(** [Number.parseInt] reads back the decimal rendering of an integer. *)
Lemma parseInt_pretty (z : Z) : parseInt (pretty z) = Some z.
Proof.
  destruct z as [|p|p]; [done|apply parseInt_pretty_pos|].
  change (pretty (Z.neg p)) with (String "-" (pretty_N_go (N.pos p) EmptyString)).
  unfold parseInt. cbn [trim_start].
  change (is_space "-") with false. cbv iota.
  rewrite <- (string_app_nil_r (pretty_N_go (N.pos p) EmptyString)).
  rewrite leading_digits_pretty by lia. cbn [leading_digits]. f_equal.
Qed.

(** The largest magnitude up to which every integer is a number of its
    own, and the largest time value of a [Date]. *)
Definition MAX_EXACT_INTEGER : Z := 2 ^ 53.
Definition MAX_TIME_VALUE : Z := 8640000000000000.

(** X6. A reset header that is the decimal rendering of an integer [R]
    (what the API sends) is read back as [R]: the wait is the time left
    until [R] seconds, or until [R] milliseconds when [R] exceeds 10^12,
    and zero once that instant has passed. This is for [R] of magnitude
    at most 2^53 and a clock after the epoch, where the numbers of the
    computation are exact, or are negative and cut off to zero. *)
Theorem wait_for_decimal_header (R now : Z) :
  - MAX_EXACT_INTEGER <= R <= MAX_EXACT_INTEGER →
  0 <= now <= MAX_TIME_VALUE →
  getRateLimitWaitMs (Some (pretty R)) now
  = Z.max ((if decide (R <= 10 ^ 12) then R * 1000 else R) - now) 0
  ∧ 0 <= getRateLimitWaitMs (Some (pretty R)) now <= MAX_EXACT_INTEGER.
Proof.
  intros HR Hnow.
  rewrite getRateLimitWaitMs_refines. unfold backoff_wait_spec.
  cbn [mbind option_bind]. rewrite parseInt_pretty.
  unfold reset_instant_spec, MAX_EXACT_INTEGER, MAX_TIME_VALUE in *.
  repeat case_decide; lia.
Qed.

(** ** The resource methods: what they send and what they make of an
    empty success *)

(** Between [w] and [w'] only requests that satisfy [P] were sent. *)
Definition only_sends (P : Request → Prop) (w w' : World) : Prop :=
  ∃ new, trace w' = trace w ++ new ∧ ∀ req res, Fetched req res ∈ new → P req.

(** A request with no body, and a request whose body is the serialization
    of [v]. *)
Definition bodiless (method : RequestMethod) (url : string) (req : Request) : Prop :=
  req_method req = method ∧ req_url req = url ∧ req_body req = None.

Section ResourceMore.
Context `{Builtins} `{OAuthLibrary} `{Outside}.

Definition carries (method : RequestMethod) (url : string) (v : JSON) (req : Request) : Prop :=
  req_method req = method ∧ req_url req = url ∧ req_body req = Some (JSON_stringify v).

Lemma request_only_sends (c : XClient) method url body (w : World) :
  only_sends (attempt_of c method url body) w (request c method url body 0 w).2.
Proof.
  destruct (request_exchange c method url body 0 w) as (new & Htr & Hex).
  exists new. split; [done|]. intros req res. by eapply exchange_attempts.
Qed.

Lemma request_bodiless (c : XClient) method url (w : World) :
  only_sends (bodiless method url) w (request c method url None 0 w).2.
Proof.
  destruct (request_only_sends c method url None w) as (new & Htr & Hall).
  exists new. split; [done|]. intros req res Hin.
  by destruct (Hall req res Hin) as (? & ? & ? & _).
Qed.

Lemma request_carries (c : XClient) method url ms (w : World) :
  only_sends (carries method url (JObject ms)) w
    (request c method url (Some (JObject ms)) 0 w).2.
Proof.
  destruct (request_only_sends c method url (Some (JObject ms)) w) as (new & Htr & Hall).
  exists new. split; [done|]. intros req res Hin.
  by destruct (Hall req res Hin) as (? & ? & ? & _).
Qed.

(** X7. The reading methods send nothing but [GET] requests without a
    body, each to the URL of its endpoint, in every attempt. *)
Theorem reading_methods_only_get (c : XClient) (w : World) (username userId query : string)
    (maxResults : option Z) (paginationToken : option string) :
  only_sends (bodiless GET (BASE_URL +:+ "/users/me?" +:+ user_fields)) w (me c w).2
  ∧ only_sends
      (bodiless GET (BASE_URL +:+ "/users/by/username/" +:+ username +:+ "?" +:+ user_fields))
      w (getUser c username w).2
  ∧ only_sends (bodiless GET (getUserPosts_url userId maxResults paginationToken))
      w (getUserPosts c userId maxResults paginationToken w).2
  ∧ only_sends (bodiless GET (searchRecent_url query maxResults paginationToken))
      w (searchRecent c query maxResults paginationToken w).2.
Proof. repeat apply conj; apply request_bodiless. Qed.

(** X8. The writing methods: [deletePost], [unlike] and [unfollow] send
    only [DELETE] requests without a body; [createPost], [like], [retweet]
    and [follow] send only [POST] requests whose body is the
    serialization of their JSON object; each to the URL of its endpoint,
    in every attempt. *)
Theorem writing_methods_requests (c : XClient) (w : World)
    (id text userId tweetId sourceUserId targetUserId : string) (opts : option PostOptions) :
  only_sends (bodiless DELETE (BASE_URL +:+ "/tweets/" +:+ id)) w (deletePost c id w).2
  ∧ only_sends (bodiless DELETE (BASE_URL +:+ "/users/" +:+ userId +:+ "/likes/" +:+ tweetId))
      w (unlike c userId tweetId w).2
  ∧ only_sends
      (bodiless DELETE
         (BASE_URL +:+ "/users/" +:+ sourceUserId +:+ "/following/" +:+ targetUserId))
      w (unfollow c sourceUserId targetUserId w).2
  ∧ only_sends (carries POST (BASE_URL +:+ "/tweets") (createPost_body text opts))
      w (createPost c text opts w).2
  ∧ only_sends
      (carries POST (BASE_URL +:+ "/users/" +:+ userId +:+ "/likes")
         (JObject [("tweet_id", JString tweetId)]))
      w (like c userId tweetId w).2
  ∧ only_sends
      (carries POST (BASE_URL +:+ "/users/" +:+ userId +:+ "/retweets")
         (JObject [("tweet_id", JString tweetId)]))
      w (retweet c userId tweetId w).2
  ∧ only_sends
      (carries POST (BASE_URL +:+ "/users/" +:+ sourceUserId +:+ "/following")
         (JObject [("target_user_id", JString targetUserId)]))
      w (follow c sourceUserId targetUserId w).2.
Proof.
  repeat apply conj; first [apply request_bodiless | apply request_carries].
Qed.

Lemma request_empty_success (c : XClient) method url body (w w1 : World) (res : Response) :
  ok res = true → JSON_parse (text res) = None →
  send c method url body w = (Return res, w1) →
  (request c method url body 0 w).1 = Return (JObject []).
Proof.
  intros Hok Hparse Hsend.
  rewrite (request_one_attempt c method url body 0 w w1 (Return res) Hsend).
  - cbn. rewrite parseResponse_ok by done. by rewrite Hparse.
  - intros res' [= <-] H429. unfold ok in Hok. rewrite H429 in Hok. discriminate.
Qed.

(** X9. What the methods make of a success without a JSON body (an empty
    204, say): the confirmations [deletePost], [like], [retweet] and
    [follow] report [false], [unlike] and [unfollow] report [true], the
    list methods return an empty page, and the entity methods raise their
    no-data error. *)
Theorem methods_on_empty_success (c : XClient) (w w1 : World) (res : Response)
    (id post username userId tweetId sourceUserId targetUserId query : string)
    (opts : option PostOptions) (maxResults : option Z) (paginationToken : option string) :
  ok res = true → JSON_parse (text res) = None →
  (send c DELETE (BASE_URL +:+ "/tweets/" +:+ id) None w = (Return res, w1) →
   (deletePost c id w).1 = Return false)
  ∧ (send c POST (BASE_URL +:+ "/users/" +:+ userId +:+ "/likes")
       (Some (JObject [("tweet_id", JString tweetId)])) w = (Return res, w1) →
     (like c userId tweetId w).1 = Return false)
  ∧ (send c DELETE (BASE_URL +:+ "/users/" +:+ userId +:+ "/likes/" +:+ tweetId) None w
       = (Return res, w1) →
     (unlike c userId tweetId w).1 = Return true)
  ∧ (send c POST (BASE_URL +:+ "/users/" +:+ userId +:+ "/retweets")
       (Some (JObject [("tweet_id", JString tweetId)])) w = (Return res, w1) →
     (retweet c userId tweetId w).1 = Return false)
  ∧ (send c POST (BASE_URL +:+ "/users/" +:+ sourceUserId +:+ "/following")
       (Some (JObject [("target_user_id", JString targetUserId)])) w = (Return res, w1) →
     (follow c sourceUserId targetUserId w).1 = Return false)
  ∧ (send c DELETE
       (BASE_URL +:+ "/users/" +:+ sourceUserId +:+ "/following/" +:+ targetUserId) None w
       = (Return res, w1) →
     (unfollow c sourceUserId targetUserId w).1 = Return true)
  ∧ (send c GET (getUserPosts_url userId maxResults paginationToken) None w
       = (Return res, w1) →
     (getUserPosts c userId maxResults paginationToken w).1
       = Return {| data := []; nextToken := None; meta := None |})
  ∧ (send c GET (searchRecent_url query maxResults paginationToken) None w
       = (Return res, w1) →
     (searchRecent c query maxResults paginationToken w).1
       = Return {| data := []; nextToken := None; meta := None |})
  ∧ (send c POST (BASE_URL +:+ "/tweets") (Some (createPost_body post opts)) w
       = (Return res, w1) →
     (createPost c post opts w).1 = Throw (Error "X API returned no post data."))
  ∧ (send c GET (BASE_URL +:+ "/users/me?" +:+ user_fields) None w = (Return res, w1) →
     (me c w).1 = Throw (Error "X API returned no authenticated user data."))
  ∧ (send c GET
       (BASE_URL +:+ "/users/by/username/" +:+ username +:+ "?" +:+ user_fields) None w
       = (Return res, w1) →
     (getUser c username w).1
       = Throw (Error ("X API returned no user data for @" +:+ username +:+ "."))).
Proof.
  intros Hok Hparse.
  repeat apply conj; intros Hsend;
    pose proof (request_empty_success _ _ _ _ _ _ _ Hok Hparse Hsend) as Hreq;
    unfold deletePost, like, unlike, retweet, follow, unfollow, getUserPosts,
      searchRecent, createPost, me, getUser;
    by rewrite (and_then_return _ _ _ Hreq).
Qed.

End ResourceMore.

(** ** Query strings: cursors and encoding *)

(** X10. The page cursor goes under [pagination_token] for the timeline
    and under [next_token] for the search, never the other way round; an
    empty cursor is left out like an absent one; and [max_results] and
    [tweet.fields] are always there. *)
Theorem cursor_parameter_names (query : string) (maxResults : option Z)
    (paginationToken : option string) :
  JS.assoc "pagination_token" (getUserPosts_params maxResults paginationToken)
    = (if truthy_str paginationToken then paginationToken else None)
  ∧ JS.assoc "next_token" (getUserPosts_params maxResults paginationToken) = None
  ∧ JS.assoc "next_token" (searchRecent_params query maxResults paginationToken)
    = (if truthy_str paginationToken then paginationToken else None)
  ∧ JS.assoc "pagination_token" (searchRecent_params query maxResults paginationToken) = None
  ∧ JS.assoc "query" (searchRecent_params query maxResults paginationToken) = Some query
  ∧ JS.assoc "tweet.fields" (getUserPosts_params maxResults paginationToken)
    = Some "created_at,public_metrics,text"
  ∧ JS.assoc "tweet.fields" (searchRecent_params query maxResults paginationToken)
    = Some "created_at,public_metrics,author_id,text"
  ∧ length (getUserPosts_params maxResults paginationToken)
    = (if truthy_str paginationToken then 3 else 2)%nat
  ∧ length (searchRecent_params query maxResults paginationToken)
    = (if truthy_str paginationToken then 4 else 3)%nat.
Proof.
  unfold getUserPosts_params, searchRecent_params.
  destruct paginationToken as [[|ch tok]|]; repeat apply conj; reflexivity.
Qed.

Fixpoint count_char (c : ascii) (s : string) : nat :=
  match s with
  | EmptyString => 0
  | String x r => (if Ascii.eqb x c then 1 else 0) + count_char c r
  end.

Fixpoint all_chars (p : ascii → bool) (s : string) : bool :=
  match s with
  | EmptyString => true
  | String x r => p x && all_chars p r
  end.

(** The characters the serializer can produce for a name or a value. *)
Definition query_safe (c : ascii) : bool :=
  URL.form_safe (code c) || Ascii.eqb c "+" || Ascii.eqb c "%".

Lemma all_chars_app (p : ascii → bool) (a b : string) :
  all_chars p (a +:+ b) = all_chars p a && all_chars p b.
Proof.
  induction a as [|x a IH]; [done|].
  change (String x a +:+ b) with (String x (a +:+ b)). cbn [all_chars].
  by rewrite IH, andb_assoc.
Qed.

Lemma count_char_app (c : ascii) (a b : string) :
  count_char c (a +:+ b) = (count_char c a + count_char c b)%nat.
Proof.
  induction a as [|x a IH]; [done|].
  change (String x a +:+ b) with (String x (a +:+ b)). cbn [count_char].
  rewrite IH. lia.
Qed.

Lemma encode_char_safe (c : ascii) :
  all_chars query_safe (String.concat EmptyString (map URL.encode_byte (URL.utf8 c))) = true.
Proof. destruct c as [[] [] [] [] [] [] [] []]; by vm_compute. Qed.

Lemma encode_safe (s : string) : all_chars query_safe (URL.encode s) = true.
Proof.
  induction s as [|c s IH]; [done|].
  cbn [URL.encode]. by rewrite all_chars_app, encode_char_safe, IH.
Qed.

Lemma count_unsafe (c : ascii) (s : string) :
  query_safe c = false → all_chars query_safe s = true → count_char c s = 0%nat.
Proof.
  intros Hc. induction s as [|x s IH]; [done|].
  cbn [all_chars count_char]. intros [Hx Hs]%andb_true_iff.
  rewrite IH by done.
  destruct (Ascii.eqb_spec x c) as [->|]; [congruence | done].
Qed.

Lemma toString_counts (ps : URL.params) :
  ps ≠ [] →
  count_char "=" (URL.toString ps) = length ps
  ∧ S (count_char "&" (URL.toString ps)) = length ps.
Proof.
  unfold URL.toString. induction ps as [|[k v] ps IH]; [done|]. intros _.
  assert (Hkv : count_char "=" (URL.encode k +:+ "=" +:+ URL.encode v) = 1%nat
                ∧ count_char "&" (URL.encode k +:+ "=" +:+ URL.encode v) = 0%nat).
  { rewrite !count_char_app.
    rewrite (count_unsafe "=" (URL.encode k)), (count_unsafe "=" (URL.encode v)),
      (count_unsafe "&" (URL.encode k)), (count_unsafe "&" (URL.encode v))
      by (done || apply encode_safe).
    done. }
  destruct Hkv as [Heq Hamp].
  set (one := URL.encode k +:+ "=" +:+ URL.encode v) in *.
  destruct ps as [|kv ps].
  { change (count_char "=" one = 1%nat ∧ S (count_char "&" one) = 1%nat).
    by rewrite Heq, Hamp. }
  destruct (IH ltac:(done)) as [IHeq IHamp].
  change (join "&" (map _ ((k, v) :: kv :: ps)))
    with (one +:+ "&"
            +:+ join "&" (map (λ kv, URL.encode kv.1 +:+ "=" +:+ URL.encode kv.2) (kv :: ps))).
  rewrite !count_char_app, Heq, Hamp, IHeq.
  change (count_char "=" "&") with 0%nat. change (count_char "&" "&") with 1%nat.
  cbn [length] in *. lia.
Qed.

(** X11. Nothing in a search query or in a cursor can add, split or end a
    parameter: every name and value is serialized into letters, digits and
    [* - . _ + %] only, so that the query string of the search has exactly
    one [=] per parameter and one [&] between two parameters, whatever the
    query and the cursor are; the same holds for the timeline. *)
Theorem query_string_keeps_its_parameters (query : string) (maxResults : option Z)
    (paginationToken : option string) :
  all_chars query_safe (URL.encode query) = true
  ∧ count_char "=" (URL.toString (searchRecent_params query maxResults paginationToken))
    = (if truthy_str paginationToken then 4 else 3)%nat
  ∧ count_char "&" (URL.toString (searchRecent_params query maxResults paginationToken))
    = (if truthy_str paginationToken then 3 else 2)%nat
  ∧ count_char "=" (URL.toString (getUserPosts_params maxResults paginationToken))
    = (if truthy_str paginationToken then 3 else 2)%nat
  ∧ count_char "&" (URL.toString (getUserPosts_params maxResults paginationToken))
    = (if truthy_str paginationToken then 2 else 1)%nat.
Proof.
  split; [apply encode_safe|].
  assert (Hs : searchRecent_params query maxResults paginationToken ≠ [])
    by (unfold searchRecent_params; by destruct paginationToken as [[|??]|]).
  assert (Hu : getUserPosts_params maxResults paginationToken ≠ [])
    by (unfold getUserPosts_params; by destruct paginationToken as [[|??]|]).
  destruct (toString_counts _ Hs) as [Hs1 Hs2].
  destruct (toString_counts _ Hu) as [Hu1 Hu2].
  assert (Hls : length (searchRecent_params query maxResults paginationToken)
                = (if truthy_str paginationToken then 4 else 3)%nat)
    by (unfold searchRecent_params; by destruct paginationToken as [[|??]|]).
  assert (Hlu : length (getUserPosts_params maxResults paginationToken)
                = (if truthy_str paginationToken then 3 else 2)%nat)
    by (unfold getUserPosts_params; by destruct paginationToken as [[|??]|]).
  rewrite Hs1, Hu1. rewrite Hls in *. rewrite Hlu in *.
  destruct (truthy_str paginationToken); repeat split; lia.
Qed.

(** ** The body of [createPost] *)

(** X12. The body of [createPost] always has the [text]; it has [reply],
    with the id under [in_reply_to_tweet_id], exactly when [replyTo] is a
    non-empty string, and [quote_tweet_id] exactly when [quoteTweetId] is
    one; it has no other member, and it is always sent. *)
Theorem createPost_body_members (post : string) (opts : option PostOptions) :
  get (createPost_body post opts) "text" = Some (JString post)
  ∧ get (createPost_body post opts) "reply"
    = match opts ≫= replyTo with
      | Some (String a r) =>
          Some (JObject [("in_reply_to_tweet_id", JString (String a r))])
      | _ => None
      end
  ∧ get (createPost_body post opts) "quote_tweet_id"
    = match opts ≫= quoteTweetId with
      | Some (String a q) => Some (JString (String a q))
      | _ => None
      end
  ∧ (∀ k, k ≠ "text" → k ≠ "reply" → k ≠ "quote_tweet_id" →
          get (createPost_body post opts) k = None)
  ∧ truthy (Some (createPost_body post opts)) = true.
Proof.
  unfold createPost_body.
  destruct opts as [[[[|a r]|] [[|b q]|]]|]; cbn;
    repeat apply conj; try reflexivity;
    intros k H1 H2 H3;
    apply String.eqb_neq in H1, H2, H3; by rewrite ?H1, ?H2, ?H3.
Qed.

(** ** What a match of the config patterns looks like *)

Module RegexFacts.
Import Regex.

(** [matches r s caps s' caps']: [r] can consume a prefix of [s], leaving
    [s'], and turn the groups [caps] into [caps']. A turn of a star must
    consume something, as in the language. The relation says which
    matches exist, not which one the matcher prefers. *)
Inductive matches : re → string → captures → string → captures → Prop :=
| m_eps s caps : matches Eps s caps s caps
| m_chr p ch s caps : p ch = true → matches (Chr p) (String ch s) caps s caps
| m_seq r1 r2 s caps s1 caps1 s2 caps2 :
    matches r1 s caps s1 caps1 → matches r2 s1 caps1 s2 caps2 →
    matches (Seq r1 r2) s caps s2 caps2
| m_alt_l r1 r2 s caps s' caps' :
    matches r1 s caps s' caps' → matches (Alt r1 r2) s caps s' caps'
| m_alt_r r1 r2 s caps s' caps' :
    matches r2 s caps s' caps' → matches (Alt r1 r2) s caps s' caps'
| m_star_stop r s caps : matches (Star r) s caps s caps
| m_star_more r s caps s1 caps1 s2 caps2 :
    matches r s caps s1 caps1 → (String.length s1 < String.length s)%nat →
    matches (Star r) s1 caps1 s2 caps2 →
    matches (Star r) s caps s2 caps2
| m_lazy_stop r s caps : matches (LazyStar r) s caps s caps
| m_lazy_more r s caps s1 caps1 s2 caps2 :
    matches r s caps s1 caps1 → (String.length s1 < String.length s)%nat →
    matches (LazyStar r) s1 caps1 s2 caps2 →
    matches (LazyStar r) s caps s2 caps2
| m_group n r s caps s' caps' :
    matches r s caps s' caps' →
    matches (Group n r) s caps s' ((n, consumed s s') :: caps')
| m_eoi caps : matches Eoi EmptyString caps EmptyString caps.

(** The loops of [run], by name. *)
Definition star_loop (r : re) (k : string → captures → option captures) :=
  fix loop (fuel : nat) (s : string) (caps : captures) {struct fuel} :=
    match fuel with
    | O => k s caps
    | S fuel' =>
        match run r s caps
                (λ s' caps',
                   if (String.length s' <? String.length s)%nat
                   then loop fuel' s' caps' else None) with
        | Some c => Some c
        | None => k s caps
        end
    end.

Definition lazy_loop (r : re) (k : string → captures → option captures) :=
  fix loop (fuel : nat) (s : string) (caps : captures) {struct fuel} :=
    match fuel with
    | O => k s caps
    | S fuel' =>
        match k s caps with
        | Some c => Some c
        | None =>
            run r s caps
              (λ s' caps',
                 if (String.length s' <? String.length s)%nat
                 then loop fuel' s' caps' else None)
        end
    end.

Lemma run_star (r : re) s caps k :
  run (Star r) s caps k = star_loop r k (String.length s) s caps.
Proof. reflexivity. Qed.

Lemma run_lazy (r : re) s caps k :
  run (LazyStar r) s caps k = lazy_loop r k (String.length s) s caps.
Proof. reflexivity. Qed.

(** Every answer of the matcher is a match. *)
Lemma run_sound (r : re) :
  ∀ s caps k res,
    run r s caps k = Some res →
    ∃ s' caps', matches r s caps s' caps' ∧ k s' caps' = Some res.
Proof.
  induction r as [|p|r1 IH1 r2 IH2|r1 IH1 r2 IH2|r IH|r IH|n r IH|];
    intros s caps k res Hrun.
  - exists s, caps. split; [constructor | done].
  - destruct s as [|ch s]; [discriminate|]. cbn [run] in Hrun.
    destruct (p ch) eqn:Hp; [|discriminate].
    exists s, caps. split; [by constructor | done].
  - cbn [run] in Hrun.
    apply IH1 in Hrun as (s1 & caps1 & Hm1 & Hrun).
    apply IH2 in Hrun as (s2 & caps2 & Hm2 & Hk).
    exists s2, caps2. split; [by econstructor | done].
  - cbn [run] in Hrun. destruct (run r1 s caps k) as [c|] eqn:H1.
    + injection Hrun as ->. apply IH1 in H1 as (s' & caps' & Hm & Hk).
      exists s', caps'. split; [by apply m_alt_l | done].
    + apply IH2 in Hrun as (s' & caps' & Hm & Hk).
      exists s', caps'. split; [by apply m_alt_r | done].
  - rewrite run_star in Hrun. revert Hrun.
    generalize (String.length s). intros fuel. revert s caps.
    induction fuel as [|fuel IHf]; intros s caps Hrun; cbn [star_loop] in Hrun.
    + exists s, caps. split; [constructor | done].
    + fold (star_loop r k) in Hrun.
      destruct (run r s caps _) as [c|] eqn:Hr.
      * injection Hrun as ->. apply IH in Hr as (s1 & caps1 & Hm & Hk).
        destruct (Nat.ltb_spec (String.length s1) (String.length s)); [|discriminate].
        apply IHf in Hk as (s2 & caps2 & Hms & Hk).
        exists s2, caps2. split; [by eapply m_star_more | done].
      * exists s, caps. split; [constructor | done].
  - rewrite run_lazy in Hrun. revert Hrun.
    generalize (String.length s). intros fuel. revert s caps.
    induction fuel as [|fuel IHf]; intros s caps Hrun; cbn [lazy_loop] in Hrun.
    + exists s, caps. split; [constructor | done].
    + fold (lazy_loop r k) in Hrun.
      destruct (k s caps) as [c|] eqn:Hk0.
      * injection Hrun as ->. exists s, caps. split; [constructor | done].
      * apply IH in Hrun as (s1 & caps1 & Hm & Hk).
        destruct (Nat.ltb_spec (String.length s1) (String.length s)); [|discriminate].
        apply IHf in Hk as (s2 & caps2 & Hms & Hk).
        exists s2, caps2. split; [by eapply m_lazy_more | done].
  - cbn [run] in Hrun. apply IH in Hrun as (s' & caps' & Hm & Hk).
    exists s', ((n, consumed s s') :: caps'). split; [by constructor | done].
  - destruct s; [|discriminate]. exists EmptyString, caps. split; [constructor | done].
Qed.

Lemma exec_sound (r : re) (line : string) (caps : captures) :
  exec r line = Some caps → ∃ s', matches r line [] s' caps.
Proof.
  intros Hexec. apply run_sound in Hexec as (s' & caps' & Hm & [= ->]). by exists s'.
Qed.

Fixpoint no_group (r : re) : bool :=
  match r with
  | Eps | Chr _ | Eoi => true
  | Seq r1 r2 | Alt r1 r2 => no_group r1 && no_group r2
  | Star r0 | LazyStar r0 => no_group r0
  | Group _ _ => false
  end.

Lemma matches_no_group r s caps s' caps' :
  matches r s caps s' caps' → no_group r = true → caps' = caps.
Proof.
  induction 1; cbn [no_group]; intros Hg; try done;
    try (apply andb_true_iff in Hg as [Hg1 Hg2]); try (by auto).
  - rewrite IHmatches2, IHmatches1; auto.
  - rewrite IHmatches2, IHmatches1; auto.
  - rewrite IHmatches2, IHmatches1; auto.
Qed.

Lemma matches_suffix r s caps s' caps' :
  matches r s caps s' caps' → ∃ u, s = u +:+ s'.
Proof.
  induction 1;
    repeat match goal with IH : ∃ u, _ = _ |- _ => destruct IH as [? ->] end;
    first [ by exists EmptyString
          | by eexists (String _ EmptyString)
          | by eexists
          | eexists (_ +:+ _); by rewrite string_app_assoc ].
Qed.

Lemma string_length_app (a b : string) :
  String.length (a +:+ b) = (String.length a + String.length b)%nat.
Proof.
  induction a as [|x a IH]; [done|].
  change (String x a +:+ b) with (String x (a +:+ b)). cbn [String.length]. by rewrite IH.
Qed.

Lemma consumed_app (u s' : string) : consumed (u +:+ s') s' = u.
Proof.
  unfold consumed. rewrite string_length_app.
  replace (String.length u + String.length s' - String.length s')%nat
    with (String.length u) by lia.
  induction u as [|x u IH]; [by destruct s'|].
  change (String x u +:+ s') with (String x (u +:+ s')). cbn. by rewrite IH.
Qed.

(** A star over a single character class consumes characters of the
    class. *)
Lemma matches_star_chr p s caps s' caps' :
  matches (Star (Chr p)) s caps s' caps' →
  ∃ u, s = u +:+ s' ∧ all_chars p u = true.
Proof.
  remember (Star (Chr p)) as r eqn:Hr. induction 1; try discriminate.
  - by exists EmptyString.
  - injection Hr as ->.
    match goal with Hm : matches (Chr _) _ _ _ _ |- _ => inversion Hm; subst end.
    destruct (IHmatches2 eq_refl) as (u & -> & Hu).
    exists (String ch u). split; [done|]. cbn. by rewrite Hu, andb_true_r.
Qed.

Lemma matches_lazy_chr p s caps s' caps' :
  matches (LazyStar (Chr p)) s caps s' caps' →
  ∃ u, s = u +:+ s' ∧ all_chars p u = true.
Proof.
  remember (LazyStar (Chr p)) as r eqn:Hr. induction 1; try discriminate.
  - by exists EmptyString.
  - injection Hr as ->.
    match goal with Hm : matches (Chr _) _ _ _ _ |- _ => inversion Hm; subst end.
    destruct (IHmatches2 eq_refl) as (u & -> & Hu).
    exists (String ch u). split; [done|]. cbn. by rewrite Hu, andb_true_r.
Qed.

(** The matcher finds a match whenever there is one that the continuation
    accepts. *)
Lemma run_complete (r : re) :
  ∀ s caps k,
    run r s caps k = None →
    ∀ s' caps', matches r s caps s' caps' → k s' caps' = None.
Proof.
  induction r as [|p|r1 IH1 r2 IH2|r1 IH1 r2 IH2|r IH|r IH|n r IH|];
    intros s caps k Hrun s' caps' Hm.
  - by inversion Hm; subst.
  - inversion Hm; subst. cbn [run] in Hrun.
    match goal with Hp : p _ = true |- _ => by rewrite Hp in Hrun end.
  - inversion Hm; subst. cbn [run] in Hrun.
    eapply IH2; [|eassumption]. by eapply (IH1 _ _ _ Hrun).
  - cbn [run] in Hrun. destruct (run r1 s caps k) eqn:H1; [discriminate|].
    inversion Hm; subst; [by eapply IH1 | by eapply IH2].
  - rewrite run_star in Hrun.
    assert (Hfuel : (String.length s <= String.length s)%nat) by lia.
    revert Hfuel Hrun. generalize (String.length s) at 2 3. intros fuel.
    revert s caps Hm. induction fuel as [|fuel IHf]; intros s caps Hm Hfuel Hrun;
      cbn [star_loop] in Hrun.
    + inversion Hm; subst; [done | lia].
    + fold (star_loop r k) in Hrun.
      destruct (run r s caps _) eqn:Hr; [discriminate|].
      inversion Hm; subst; [done|].
      match goal with
      | H1 : matches r s caps ?s1 ?c1, Hlt : (String.length ?s1 < _)%nat |- _ =>
          pose proof (IH _ _ _ Hr _ _ H1) as Hk; cbn beta in Hk;
          apply Nat.ltb_lt in Hlt as Hlt'; rewrite Hlt' in Hk;
          eapply (IHf s1 c1); [eassumption | lia | exact Hk]
      end.
  - rewrite run_lazy in Hrun.
    assert (Hfuel : (String.length s <= String.length s)%nat) by lia.
    revert Hfuel Hrun. generalize (String.length s) at 2 3. intros fuel.
    revert s caps Hm. induction fuel as [|fuel IHf]; intros s caps Hm Hfuel Hrun;
      cbn [lazy_loop] in Hrun.
    + inversion Hm; subst; [done | lia].
    + fold (lazy_loop r k) in Hrun.
      destruct (k s caps) eqn:Hk0; [discriminate|].
      inversion Hm; subst; [done|].
      match goal with
      | H1 : matches r s caps ?s1 ?c1, Hlt : (String.length ?s1 < _)%nat |- _ =>
          pose proof (IH _ _ _ Hrun _ _ H1) as Hk; cbn beta in Hk;
          apply Nat.ltb_lt in Hlt as Hlt'; rewrite Hlt' in Hk;
          eapply (IHf s1 c1); [eassumption | lia | exact Hk]
      end.
  - inversion Hm; subst. cbn [run] in Hrun.
    match goal with H1 : matches r _ _ _ _ |- _ => exact (IH _ _ _ Hrun _ _ H1) end.
  - inversion Hm; subst. exact Hrun.
Qed.

Lemma exec_complete (r : re) (line s' : string) (caps : captures) :
  matches r line [] s' caps → is_Some (exec r line).
Proof.
  intros Hm. unfold exec.
  destruct (run r line [] (λ _ caps0, Some caps0)) eqn:Hrun; [done|].
  by pose proof (run_complete r _ _ _ Hrun _ _ Hm).
Qed.

End RegexFacts.

(** ** Credential loading: what the merge can and cannot do *)

Definition key_start (c : ascii) : bool := upper c || Regex.char "_" c.
Definition key_char (c : ascii) : bool := upper c || is_digit c || Regex.char "_" c.

(** A name made of capitals, digits and underscores that does not start
    with a digit. *)
Definition valid_name (s : string) : bool :=
  match s with
  | String a r => key_start a && all_chars key_char r
  | EmptyString => false
  end.

(** A string without a line terminator. *)
Definition one_line (s : string) : bool := all_chars (λ c, negb (is_line_terminator c)) s.

(** The assignment a line of the config file stands for, if any. *)
Definition line_target (line : string) : option (string * string) :=
  if Regex.test comment_or_blank line then None
  else
    match Regex.exec assignment line with
    | Some caps =>
        match Regex.capture 1 caps, Regex.capture 2 caps with
        | Some name, Some value => Some (name, value)
        | _, _ => None
        end
    | None => None
    end.

Lemma merge_line_target (e : Env) (line : string) :
  merge_line e line
  = match line_target line with
    | Some (name, value) => if blank e name then <[name := value]> e else e
    | None => e
    end.
Proof.
  unfold merge_line, line_target, blank.
  destruct (Regex.test comment_or_blank line); [done|].
  destruct (Regex.exec assignment line) as [caps|]; [|done].
  destruct (Regex.capture 1 caps); [|done].
  by destruct (Regex.capture 2 caps).
Qed.

Ltac invert_match :=
  match goal with
  | H : RegexFacts.matches (Regex.Star (Regex.Chr _)) _ _ _ _ |- _ =>
      let Hc := fresh "Hc" in
      pose proof (RegexFacts.matches_no_group _ _ _ _ _ H eq_refl) as Hc;
      apply RegexFacts.matches_star_chr in H as (? & -> & ?); subst
  | H : RegexFacts.matches (Regex.LazyStar (Regex.Chr _)) _ _ _ _ |- _ =>
      let Hc := fresh "Hc" in
      pose proof (RegexFacts.matches_no_group _ _ _ _ _ H eq_refl) as Hc;
      apply RegexFacts.matches_lazy_chr in H as (? & -> & ?); subst
  | H : RegexFacts.matches (Regex.Alt _ _) _ _ _ _ |- _ =>
      let Hc := fresh "Hc" in
      pose proof (RegexFacts.matches_no_group _ _ _ _ _ H eq_refl) as Hc;
      clear H; subst
  | H : RegexFacts.matches (Regex.Seq _ _) _ _ _ _ |- _ => inversion H; subst; clear H
  | H : RegexFacts.matches (Regex.Group _ _) _ _ _ _ |- _ => inversion H; subst; clear H
  | H : RegexFacts.matches (Regex.Chr _) _ _ _ _ |- _ => inversion H; subst; clear H
  | H : RegexFacts.matches Regex.Eoi _ _ _ _ |- _ => inversion H; subst; clear H
  end.

Lemma assignment_shape (line : string) (caps : Regex.captures) :
  Regex.exec assignment line = Some caps →
  ∃ name value,
    caps = [(2%nat, value); (1%nat, name)]
    ∧ valid_name name = true ∧ value ≠ EmptyString ∧ one_line value = true.
Proof.
  intros Hexec. apply RegexFacts.exec_sound in Hexec as [s' Hm].
  unfold assignment, Regex.lazy_plus, Regex.opt, Regex.plus, Regex.space, Regex.dot in Hm.
  repeat invert_match.
  repeat match goal with
    | |- context [Regex.consumed (String ?a (?u +:+ ?x)) ?x] =>
        change (Regex.consumed (String a (u +:+ x)) x)
          with (Regex.consumed (String a u +:+ x) x);
        rewrite RegexFacts.consumed_app
    end.
  eexists _, _. split; [reflexivity|]. split; [|split; [done|]].
  - match goal with
    | Hs : _ || _ = true, Hr : all_chars _ _ = true |- valid_name _ = true =>
        apply andb_true_iff; split; [exact Hs | exact Hr]
    end.
  - match goal with
    | Hc : negb _ = true, Hr : all_chars _ ?v = true |- one_line (String _ ?v) = true =>
        apply andb_true_iff; split; [exact Hc | exact Hr]
    end.
Qed.

Lemma line_target_shape (line name value : string) :
  line_target line = Some (name, value) →
  valid_name name = true ∧ value ≠ EmptyString ∧ one_line value = true.
Proof.
  unfold line_target. destruct (Regex.test comment_or_blank line); [done|].
  destruct (Regex.exec assignment line) as [caps|] eqn:Hexec; [|done].
  apply assignment_shape in Hexec as (n & v & -> & Hn & Hv & Hl).
  cbn. by intros [= <- <-].
Qed.

(** What a variable can have become: it is as it was, or it was blank and
    now holds a non-empty value of one line under a valid name. *)
Definition kept_or_filled (before after : Env) (k : string) : Prop :=
  after !! k = before !! k
  ∨ (blank before k = true ∧ valid_name k = true
     ∧ ∃ v, after !! k = Some v ∧ v ≠ EmptyString ∧ one_line v = true).

Lemma blank_filled (e : Env) (k v : string) :
  e !! k = Some v → v ≠ EmptyString → blank e k = false.
Proof. unfold blank. intros -> Hv. by destruct v. Qed.

Lemma merge_line_change (e : Env) (line k : string) :
  kept_or_filled e (merge_line e line) k.
Proof.
  rewrite merge_line_target.
  destruct (line_target line) as [[name value]|] eqn:Ht; [|by left].
  apply line_target_shape in Ht as (Hn & Hv & Hl).
  destruct (blank e name) eqn:Hb; [|by left].
  destruct (decide (name = k)) as [->|Hne].
  - right. rewrite lookup_insert_eq. eauto 10.
  - left. by rewrite lookup_insert_ne.
Qed.

Lemma kept_or_filled_trans (e0 e1 e2 : Env) (k : string) :
  kept_or_filled e0 e1 k → kept_or_filled e1 e2 k → kept_or_filled e0 e2 k.
Proof.
  intros [H01|(Hb & Hn & v & Hv & Hne & Hl)] [H12|(Hb' & Hn' & v' & Hv' & Hne' & Hl')].
  - left. congruence.
  - right. unfold blank in *. rewrite <- H01. eauto 10.
  - right. rewrite H12. eauto 10.
  - by rewrite (blank_filled e1 k v) in Hb'.
Qed.

Lemma fold_change (lines : list string) (e : Env) (k : string) :
  kept_or_filled e (fold_left merge_line lines e) k.
Proof.
  revert e. induction lines as [|line lines IH]; intros e; [by left|].
  cbn [fold_left]. eapply kept_or_filled_trans; [apply merge_line_change | apply IH].
Qed.

Lemma fold_keeps (lines : list string) (e : Env) (k : string) :
  blank e k = false → fold_left merge_line lines e !! k = e !! k.
Proof.
  intros Hb. destruct (fold_change lines e k) as [Hk|(Hb' & _)]; [done | congruence].
Qed.

Lemma after_line (e : Env) (line name value : string) :
  line_target line = Some (name, value) → blank (merge_line e line) name = false.
Proof.
  intros Ht. rewrite merge_line_target, Ht.
  destruct (blank e name) eqn:Hb; [|done].
  apply line_target_shape in Ht as (_ & Hv & _).
  apply (blank_filled _ _ value); [apply lookup_insert_eq | done].
Qed.

Lemma fold_settles (lines : list string) (e : Env) (line name value : string) :
  line ∈ lines → line_target line = Some (name, value) →
  blank (fold_left merge_line lines e) name = false.
Proof.
  revert e. induction lines as [|l lines IH]; intros e Hin Ht.
  - by apply elem_of_nil in Hin.
  - cbn [fold_left]. apply elem_of_cons in Hin as [<-|Hin]; [|by apply IH].
    pose proof (after_line e line name value Ht) as Hb.
    unfold blank in *. by rewrite fold_keeps.
Qed.

Lemma fold_fixed (lines : list string) (e : Env) :
  (∀ line, line ∈ lines → merge_line e line = e) → fold_left merge_line lines e = e.
Proof.
  induction lines as [|l lines IH]; intros Hall; [done|].
  cbn [fold_left]. rewrite (Hall l) by apply list_elem_of_here.
  apply IH. intros line Hin. apply Hall. by apply list_elem_of_further.
Qed.

Lemma merge_config_idempotent (text : string) (e : Env) :
  merge_config text (merge_config text e) = merge_config text e.
Proof.
  unfold merge_config. apply fold_fixed. intros line Hin.
  rewrite merge_line_target.
  destruct (line_target line) as [[name value]|] eqn:Ht; [|done].
  by rewrite (fold_settles _ e line name value).
Qed.

Lemma skip_spaces (k : string → Regex.captures → option Regex.captures)
    (ws tail : string) (caps : Regex.captures) :
  all_chars is_space ws = true → is_Some (k tail caps) →
  ∀ fuel, (String.length (ws +:+ tail) <= fuel)%nat →
          is_Some (RegexFacts.star_loop (Regex.Chr is_space) k fuel (ws +:+ tail) caps).
Proof.
  intros Hall Hk. induction ws as [|a ws IH]; intros fuel Hlen.
  - change (EmptyString +:+ tail) with tail.
    destruct fuel as [|fuel]; [exact Hk|]. cbn [RegexFacts.star_loop].
    by destruct (Regex.run _ tail caps _).
  - cbn [all_chars] in Hall. apply andb_true_iff in Hall as [Ha Hws].
    change (String a ws +:+ tail) with (String a (ws +:+ tail)) in *.
    destruct fuel as [|fuel]; [cbn in Hlen; lia|].
    cbn [RegexFacts.star_loop Regex.run]. rewrite Ha.
    assert (Hlt : (String.length (ws +:+ tail) <? String.length (String a (ws +:+ tail)))%nat
                  = true) by (apply Nat.ltb_lt; cbn; lia).
    rewrite Hlt.
    destruct (IH Hws fuel ltac:(cbn in Hlen; lia)) as [c Hc].
    fold (RegexFacts.star_loop (Regex.Chr is_space) k). by rewrite Hc.
Qed.

Lemma skipped_line (ws tail : string) :
  all_chars is_space ws = true →
  tail = EmptyString ∨ (∃ rest, tail = String "#" rest) →
  Regex.test comment_or_blank (ws +:+ tail) = true.
Proof.
  intros Hws Htail. unfold Regex.test. apply bool_decide_eq_true.
  unfold Regex.exec, comment_or_blank, Regex.space. cbn [Regex.run].
  apply (skip_spaces _ ws tail []); [done| |done].
  by destruct Htail as [->|[rest ->]].
Qed.

Lemma credentials_of_env_returns (e : Env) (cr : XCredentials) :
  credentials_of_env e = Return cr →
  (apiKey cr ≠ EmptyString ∧ apiSecret cr ≠ EmptyString
   ∧ accessToken cr ≠ EmptyString ∧ accessTokenSecret cr ≠ EmptyString)
  ∧ either_var e "X_API_KEY" "TWITTER_API_KEY" = Some (apiKey cr)
  ∧ either_var e "X_API_SECRET" "TWITTER_API_SECRET" = Some (apiSecret cr)
  ∧ either_var e "X_ACCESS_TOKEN" "TWITTER_ACCESS_TOKEN" = Some (accessToken cr)
  ∧ either_var e "X_ACCESS_TOKEN_SECRET" "TWITTER_ACCESS_TOKEN_SECRET"
    = Some (accessTokenSecret cr)
  ∧ either_var e "X_BEARER_TOKEN" "TWITTER_BEARER_TOKEN" = bearerToken cr.
Proof.
  unfold credentials_of_env.
  destruct (either_var e "X_API_KEY" "TWITTER_API_KEY") as [[|a1 k1]|];
    destruct (either_var e "X_API_SECRET" "TWITTER_API_SECRET") as [[|a2 k2]|];
    destruct (either_var e "X_ACCESS_TOKEN" "TWITTER_ACCESS_TOKEN") as [[|a3 k3]|];
    destruct (either_var e "X_ACCESS_TOKEN_SECRET" "TWITTER_ACCESS_TOKEN_SECRET")
      as [[|a4 k4]|];
    cbn; try discriminate.
  by intros [= <-].
Qed.

Section ConfigMore.
Context `{NodePath}.

Lemma loadCredentials_outcome (h : Host) (cr : XCredentials) :
  outcome (loadCredentials h) = Return cr →
  credentials_of_env (env_after (loadCredentials h)) = Return cr.
Proof. unfold loadCredentials. by destruct (read_config h) as [[e|err] warned]. Qed.

Lemma loadCredentials_change (h : Host) (k : string) :
  kept_or_filled (env h) (env_after (loadCredentials h)) k.
Proof.
  unfold loadCredentials, read_config.
  destruct (files h (configPath (env h))) as [file|]; [destruct (content file)|];
    cbn [env_after]; [|by left..].
  apply fold_change.
Qed.

(** X13. Loading changes the environment only by filling blanks: every
    variable either keeps what it had, or was unset or empty and now
    holds a non-empty value without a line break, under a name made of
    capitals, digits and underscores that does not start with a digit. No
    variable is ever unset, emptied or replaced. *)
Theorem loadCredentials_only_fills_blanks (h : Host) (k : string) :
  kept_or_filled (env h) (env_after (loadCredentials h)) k
  ∧ (is_Some (env h !! k) → is_Some (env_after (loadCredentials h) !! k)).
Proof.
  pose proof (loadCredentials_change h k) as Hk.
  split; [exact Hk|].
  destruct Hk as [->|(_ & _ & v & -> & _)]; eauto.
Qed.

(** X14. Loading is stable: once a load has been done, with [HOME] set, a
    second load from the environment it left gives the same environment,
    the same outcome and the same warning. Every assignment of the file is
    then already in force. *)
Theorem loadCredentials_twice (h : Host) :
  blank (env h) "HOME" = false →
  loadCredentials {| env := env_after (loadCredentials h); files := files h |}
  = loadCredentials h.
Proof.
  intros Hhome.
  destruct (loadCredentials_change h "HOME") as [Hsame|(Hb & _)]; [|congruence].
  unfold loadCredentials, read_config in *. cbn [env files] in *.
  destruct (files h (configPath (env h))) as [file|] eqn:Hfile;
    [destruct (content file) as [text|err] eqn:Hread|]; cbn [env_after] in *.
  - unfold configPath in *. rewrite Hsame, Hfile, Hread.
    by rewrite merge_config_idempotent.
  - by rewrite Hfile, Hread.
  - by rewrite Hfile.
Qed.

(** X15. Credentials that a load returns are never empty: each is the
    value read for it, the [X_] variable when set and the [TWITTER_] one
    otherwise, and a non-empty [X_] variable of the environment is
    returned whatever the file and the [TWITTER_] variable hold. The
    bearer token is optional. *)
Theorem loadCredentials_returns_nonempty (h : Host) (cr : XCredentials) :
  outcome (loadCredentials h) = Return cr →
  (apiKey cr ≠ EmptyString ∧ apiSecret cr ≠ EmptyString
   ∧ accessToken cr ≠ EmptyString ∧ accessTokenSecret cr ≠ EmptyString)
  ∧ (either_var (env_after (loadCredentials h)) "X_API_KEY" "TWITTER_API_KEY"
       = Some (apiKey cr)
     ∧ either_var (env_after (loadCredentials h)) "X_API_SECRET" "TWITTER_API_SECRET"
       = Some (apiSecret cr)
     ∧ either_var (env_after (loadCredentials h)) "X_ACCESS_TOKEN" "TWITTER_ACCESS_TOKEN"
       = Some (accessToken cr)
     ∧ either_var (env_after (loadCredentials h))
         "X_ACCESS_TOKEN_SECRET" "TWITTER_ACCESS_TOKEN_SECRET"
       = Some (accessTokenSecret cr)
     ∧ either_var (env_after (loadCredentials h)) "X_BEARER_TOKEN" "TWITTER_BEARER_TOKEN"
       = bearerToken cr)
  ∧ (blank (env h) "X_API_KEY" = false → env h !! "X_API_KEY" = Some (apiKey cr))
  ∧ (blank (env h) "X_API_SECRET" = false → env h !! "X_API_SECRET" = Some (apiSecret cr))
  ∧ (blank (env h) "X_ACCESS_TOKEN" = false →
     env h !! "X_ACCESS_TOKEN" = Some (accessToken cr))
  ∧ (blank (env h) "X_ACCESS_TOKEN_SECRET" = false →
     env h !! "X_ACCESS_TOKEN_SECRET" = Some (accessTokenSecret cr)).
Proof.
  intros Hout.
  assert (Hkeep : ∀ name, blank (env h) name = false →
                          env_after (loadCredentials h) !! name = env h !! name).
  { intros name Hb.
    destruct (loadCredentials_change h name) as [Hs|(Hb' & _)]; [done | congruence]. }
  assert (Hfirst : ∀ x t a, either_var (env_after (loadCredentials h)) x t = Some a →
                            blank (env h) x = false → env h !! x = Some a).
  { intros x t a He Hb. rewrite <- (Hkeep x Hb). unfold either_var in He.
    unfold blank in Hb. rewrite <- (Hkeep x Hb) in Hb.
    by destruct (env_after (loadCredentials h) !! x). }
  apply loadCredentials_outcome in Hout.
  apply credentials_of_env_returns in Hout as (Hne & H1 & H2 & H3 & H4 & H5).
  split; [exact Hne|]. split; [done|]. repeat split; eauto.
Qed.

End ConfigMore.

(** X16. A line of the config file that is blank, or whose first
    character after any leading space is [#], changes nothing, even when
    an assignment follows the [#]. *)
Theorem comment_and_blank_lines_skipped (e : Env) (ws rest : string) :
  all_chars is_space ws = true →
  merge_line e ws = e
  ∧ merge_line e (ws +:+ String "#" rest) = e.
Proof.
  intros Hws. split.
  - assert (Ht : Regex.test comment_or_blank (ws +:+ EmptyString) = true)
      by (apply skipped_line; auto).
    rewrite string_app_nil_r in Ht. unfold merge_line. by rewrite Ht.
  - unfold merge_line. rewrite skipped_line; eauto.
Qed.

Lemma split_lines_cons (s : string) : ∃ l ls, split_lines s = l :: ls.
Proof.
  induction s as [|c s (l & ls & IH)]; [by eexists _, _|].
  cbn [split_lines]. rewrite IH. destruct (Ascii.eqb c "010"); by eexists _, _.
Qed.

(** X17. Cutting the content of the file into lines loses nothing: the
    lines joined by line feeds give the content back, no line holds a
    line feed, and there is one more line than there are line feeds (so
    that an empty file is one empty line). *)
Theorem split_lines_join (s : string) :
  join newline (split_lines s) = s
  ∧ Forall (λ l, count_char "010" l = 0%nat) (split_lines s)
  ∧ length (split_lines s) = S (count_char "010" s).
Proof.
  induction s as [|c s (IHj & IHf & IHl)]; [by repeat constructor|].
  cbn [split_lines count_char].
  destruct (split_lines_cons s) as (l & ls & Hs). rewrite Hs in *.
  destruct (Ascii.eqb_spec c "010") as [->|Hc].
  - split; [|split].
    + change (join newline (EmptyString :: l :: ls))
        with (String "010" (join newline (l :: ls))). by rewrite IHj.
    + by constructor.
    + cbn [length] in *. lia.
  - split; [|split].
    + rewrite <- IHj. by destruct ls.
    + inversion IHf; subst. constructor; [|done].
      cbn [count_char]. apply Ascii.eqb_neq in Hc. by rewrite Hc.
    + cbn [length] in *. lia.
Qed.

(** ** An ordinary assignment line *)

Ltac invert_parts :=
  match goal with
  | H : RegexFacts.matches (Regex.Star (Regex.Chr _)) _ _ _ _ |- _ =>
      let Hc := fresh "Hc" in
      pose proof (RegexFacts.matches_no_group _ _ _ _ _ H eq_refl) as Hc;
      apply RegexFacts.matches_star_chr in H as (? & -> & ?); subst
  | H : RegexFacts.matches (Regex.LazyStar (Regex.Chr _)) _ _ _ _ |- _ =>
      let Hc := fresh "Hc" in
      pose proof (RegexFacts.matches_no_group _ _ _ _ _ H eq_refl) as Hc;
      apply RegexFacts.matches_lazy_chr in H as (? & -> & ?); subst
  | H : RegexFacts.matches (Regex.Alt _ _) _ _ _ _ |- _ => inversion H; subst; clear H
  | H : RegexFacts.matches (Regex.Seq _ _) _ _ _ _ |- _ => inversion H; subst; clear H
  | H : RegexFacts.matches (Regex.Group _ _) _ _ _ _ |- _ => inversion H; subst; clear H
  | H : RegexFacts.matches (Regex.Chr _) _ _ _ _ |- _ => inversion H; subst; clear H
  | H : RegexFacts.matches Regex.Eps _ _ _ _ |- _ => inversion H; subst; clear H
  | H : RegexFacts.matches Regex.Eoi _ _ _ _ |- _ => inversion H; subst; clear H
  end.

(** The parts of a line that the assignment pattern matches. *)
Lemma assignment_parts (line s' : string) (caps : Regex.captures) :
  RegexFacts.matches assignment line [] s' caps →
  ∃ ws1 a name ws2 ws3 b value tail,
    line = ws1 +:+ String a (name +:+ ws2 +:+ String "=" (ws3 +:+ String b (value +:+ tail)))
    ∧ caps = [(2%nat, String b value); (1%nat, String a name)]
    ∧ all_chars is_space ws1 = true ∧ all_chars is_space ws2 = true
    ∧ all_chars is_space ws3 = true
    ∧ valid_name (String a name) = true
    ∧ (tail = EmptyString ∨ ∃ sp rest, tail = String sp rest ∧ is_space sp = true).
Proof.
  intros Hm.
  unfold assignment, Regex.lazy_plus, Regex.opt, Regex.plus, Regex.space, Regex.dot in Hm.
  repeat invert_parts.
  all: repeat match goal with
    | |- context [Regex.consumed (String ?a (?u +:+ ?x)) ?x] =>
        change (Regex.consumed (String a (u +:+ x)) x)
          with (Regex.consumed (String a u +:+ x) x);
        rewrite RegexFacts.consumed_app
    end.
  all: match goal with
    | He : Regex.char "=" ?c = true |- _ => apply Ascii.eqb_eq in He; subst c
    end.
  all: eexists _, _, _, _, _, _, _, _; split; [reflexivity|]; split; [reflexivity|].
  all: repeat (split; [eassumption|]).
  all: split;
    [ match goal with
      | Hs : _ || _ = true, Hr : all_chars _ _ = true |- valid_name _ = true =>
          apply andb_true_iff; split; [exact Hs | exact Hr]
      end | ].
  - right. eauto.
  - by left.
Qed.

(** The parts of a line that the pattern of a line to skip matches. *)
Lemma comment_parts (line s' : string) (caps : Regex.captures) :
  RegexFacts.matches comment_or_blank line [] s' caps →
  ∃ ws tail,
    line = ws +:+ tail ∧ all_chars is_space ws = true
    ∧ (tail = EmptyString ∨ ∃ rest, tail = String "#" rest).
Proof.
  intros Hm. unfold comment_or_blank, Regex.space in Hm. repeat invert_parts.
  - match goal with
    | He : Regex.char "#" ?c = true |- _ => apply Ascii.eqb_eq in He; subst c
    end.
    eexists _, _. split; [reflexivity|]. eauto.
  - eexists _, _. split; [reflexivity|]. eauto.
Qed.

Lemma key_char_facts (c : ascii) :
  (key_start c = true → key_char c = true)
  ∧ (key_char c = true → is_space c = false ∧ c ≠ "="%char ∧ c ≠ "#"%char)
  ∧ (is_space c = true → c ≠ "="%char).
Proof.
  destruct c as [[] [] [] [] [] [] [] []]; vm_compute;
    repeat split; intros; try discriminate; done.
Qed.

Lemma valid_name_chars (s : string) :
  valid_name s = true →
  all_chars key_char s = true ∧ ∃ a r, s = String a r ∧ key_start a = true.
Proof.
  destruct s as [|a r]; [done|]. cbn [valid_name all_chars].
  intros [Ha Hr]%andb_true_iff. split; [|by eauto].
  by rewrite (proj1 (key_char_facts a) Ha).
Qed.

(** Two runs of characters of a class, each followed by a character
    outside of it, are the same run when the whole strings are. *)
Lemma run_unique (p : ascii → bool) (a b x y : string) (cx cy : ascii) :
  all_chars p a = true → all_chars p b = true →
  p cx = false → p cy = false →
  a +:+ String cx x = b +:+ String cy y →
  a = b ∧ String cx x = String cy y.
Proof.
  revert b. induction a as [|c a IH]; intros [|d b] Ha Hb Hcx Hcy Heq.
  - done.
  - injection Heq as -> _. cbn in Hb. apply andb_true_iff in Hb as [Hd _]. congruence.
  - injection Heq as -> _. cbn in Ha. apply andb_true_iff in Ha as [Hc _]. congruence.
  - injection Heq as -> Heq. cbn in Ha, Hb.
    apply andb_true_iff in Ha as [_ Ha]. apply andb_true_iff in Hb as [_ Hb].
    destruct (IH b Ha Hb Hcx Hcy Heq) as [-> ->]. done.
Qed.

Lemma spaces_before (ws x y : string) (c : ascii) :
  all_chars is_space ws = true → is_space c = false →
  ws +:+ x = String c y → ws = EmptyString.
Proof.
  destruct ws as [|w ws]; [done|]. cbn. intros [Hw _]%andb_true_iff Hc [= -> _]. congruence.
Qed.

(** A string without a space. *)
Definition spaceless (s : string) : bool := all_chars (λ c, negb (is_space c)) s.

Lemma spaceless_one_line (s : string) : spaceless s = true → one_line s = true.
Proof.
  unfold spaceless, one_line. induction s as [|c s IH]; [done|]. cbn.
  intros [Hc Hs]%andb_true_iff. rewrite (IH Hs), andb_true_r.
  unfold is_space in Hc. by destruct (is_white_space c), (is_line_terminator c).
Qed.

Lemma matches_star_all (p : ascii → bool) (u s : string) (caps : Regex.captures) :
  all_chars p u = true →
  RegexFacts.matches (Regex.Star (Regex.Chr p)) (u +:+ s) caps s caps.
Proof.
  induction u as [|c u IH]; [constructor|]. cbn. intros [Hc Hu]%andb_true_iff.
  change (String c u +:+ s) with (String c (u +:+ s)).
  eapply RegexFacts.m_star_more; [by constructor | cbn; lia | by apply IH].
Qed.

Lemma matches_lazy_all (p : ascii → bool) (u s : string) (caps : Regex.captures) :
  all_chars p u = true →
  RegexFacts.matches (Regex.LazyStar (Regex.Chr p)) (u +:+ s) caps s caps.
Proof.
  induction u as [|c u IH]; [constructor|]. cbn. intros [Hc Hu]%andb_true_iff.
  change (String c u +:+ s) with (String c (u +:+ s)).
  eapply RegexFacts.m_lazy_more; [by constructor | cbn; lia | by apply IH].
Qed.

Lemma assignment_matches_plain (a b : ascii) (name value : string) :
  valid_name (String a name) = true → one_line (String b value) = true →
  ∃ caps,
    RegexFacts.matches assignment
      (String a (name +:+ String "=" (String b (value +:+ EmptyString)))) []
      EmptyString caps.
Proof.
  cbn [valid_name one_line all_chars].
  intros [Ha Hn]%andb_true_iff [Hb Hv]%andb_true_iff.
  eexists. unfold assignment, Regex.lazy_plus, Regex.opt, Regex.plus, Regex.space, Regex.dot.
  eapply RegexFacts.m_seq; [apply RegexFacts.m_star_stop|].
  eapply RegexFacts.m_seq.
  { apply RegexFacts.m_group. eapply RegexFacts.m_seq; [by constructor|].
    by apply matches_star_all. }
  eapply RegexFacts.m_seq; [apply RegexFacts.m_star_stop|].
  eapply RegexFacts.m_seq; [by constructor|].
  eapply RegexFacts.m_seq; [apply RegexFacts.m_star_stop|].
  eapply RegexFacts.m_seq.
  { apply RegexFacts.m_group. eapply RegexFacts.m_seq; [by constructor|].
    by apply matches_lazy_all. }
  eapply RegexFacts.m_seq; [apply RegexFacts.m_alt_r, RegexFacts.m_eps|].
  apply RegexFacts.m_eoi.
Qed.

Lemma plain_line_target (name value : string) :
  valid_name name = true → value ≠ EmptyString → spaceless value = true →
  line_target (name +:+ "=" +:+ value) = Some (name, value).
Proof.
  intros Hname Hne Hsp.
  destruct (valid_name_chars name Hname) as (Hkc & a & r & -> & Ha).
  destruct value as [|b v]; [done|].
  pose proof (spaceless_one_line _ Hsp) as Hline.
  destruct (key_char_facts a) as (Hak & Hsafe & _).
  destruct (Hsafe (Hak Ha)) as (Hasp & _ & Hahash).
  set (line := String a r +:+ "=" +:+ String b v).
  unfold line_target.
  assert (Htest : Regex.test comment_or_blank line = false).
  { unfold Regex.test. apply bool_decide_eq_false. intros [caps Hexec].
    apply RegexFacts.exec_sound in Hexec as [s' Hm].
    apply comment_parts in Hm as (ws & tail & Heq & Hws & Htail).
    subst line. change (String a r +:+ "=" +:+ String b v)
      with (String a (r +:+ "=" +:+ String b v)) in Heq.
    symmetry in Heq. pose proof (spaces_before ws _ _ a Hws Hasp Heq) as ->.
    destruct Htail as [->|[rest ->]]; [discriminate Heq|].
    injection Heq as Heq _. congruence. }
  rewrite Htest.
  destruct (assignment_matches_plain a b r v Hname Hline) as [caps0 Hm0].
  rewrite string_app_nil_r in Hm0.
  destruct (RegexFacts.exec_complete assignment line _ _ Hm0) as [caps Hexec].
  rewrite Hexec.
  apply RegexFacts.exec_sound in Hexec as [s' Hm].
  apply assignment_parts in Hm
    as (ws1 & a' & n' & ws2 & ws3 & b' & v' & tail & Heq & -> & H1 & H2 & H3 & Hn' & Htail).
  cbn [Regex.capture find fst snd Nat.eqb fmap option_fmap option_map].
  subst line. change (String a r +:+ "=" +:+ String b v)
    with (String a (r +:+ String "=" (String b v))) in Heq.
  symmetry in Heq.
  pose proof (spaces_before ws1 _ _ a H1 Hasp Heq) as ->.
  injection Heq as <- Heq.
  destruct (valid_name_chars _ Hn') as (Hkc' & _).
  cbn [all_chars] in Hkc, Hkc'.
  apply andb_true_iff in Hkc as [_ Hkr]. apply andb_true_iff in Hkc' as [_ Hkr'].
  assert (Hname_eq : n' = r ∧ ws2 = EmptyString
                     ∧ ws3 +:+ String b' (v' +:+ tail) = String b v).
  { destruct ws2 as [|w ws2].
    - destruct (run_unique key_char n' r _ _ "=" "=" Hkr' Hkr eq_refl eq_refl Heq)
        as [-> [= Hrest]]. done.
    - exfalso. cbn in H2. apply andb_true_iff in H2 as [Hw _].
      assert (Hwk : key_char w = false).
      { destruct (key_char w) eqn:Hk; [|done].
        destruct (proj1 (proj2 (key_char_facts w)) Hk) as [Hns _]. congruence. }
      change (n' +:+ String w ws2 +:+ String "=" (ws3 +:+ String b' (v' +:+ tail)))
        with (n' +:+ String w (ws2 +:+ String "=" (ws3 +:+ String b' (v' +:+ tail))))
        in Heq.
      destruct (run_unique key_char n' r _ _ w "=" Hkr' Hkr Hwk eq_refl Heq)
        as [_ [= -> _]].
      by destruct (proj2 (proj2 (key_char_facts "=")) Hw). }
  destruct Hname_eq as (-> & -> & Hval).
  unfold spaceless in Hsp. cbn [all_chars] in Hsp.
  apply andb_true_iff in Hsp as [Hbsp Hvsp]. apply negb_true_iff in Hbsp.
  pose proof (spaces_before ws3 _ _ b H3 Hbsp Hval) as ->.
  injection Hval as -> Hval.
  assert (tail = EmptyString) as ->.
  { destruct Htail as [->|(sp & rest & -> & Hsp)]; [done|]. exfalso.
    rewrite <- Hval, all_chars_app in Hvsp. apply andb_true_iff in Hvsp as [_ Ht].
    cbn in Ht. by rewrite Hsp in Ht. }
  rewrite string_app_nil_r in Hval. by subst.
Qed.

(** X18. An ordinary line [NAME=value], with a name of capitals, digits and
    underscores that does not start with a digit and a non-empty value
    without a space, sets the variable to exactly that value when the
    variable is unset or empty, and changes nothing otherwise. *)
Theorem plain_assignment_line (e : Env) (name value : string) :
  valid_name name = true → value ≠ EmptyString → spaceless value = true →
  merge_line e (name +:+ "=" +:+ value)
  = if blank e name then <[name := value]> e else e.
Proof.
  intros Hname Hne Hsp.
  by rewrite merge_line_target, plain_line_target.
Qed.

(** ** An earlier revision of the client: the bearer-token path

    The earlier [XClient] of the repository kept the bearer token, read
    the body with [res.json()], and sent the recent search through
    [bearerRequest] instead of the signed executor. *)

Module Legacy.

(** The exceptions of the built-ins, taken as given: the one [res.json()]
    raises on a body that is not JSON, and the [URIError] that
    [encodeURIComponent] raises. *)
Class BuiltinErrors : Type := {
  json_syntax_error : string → exn;
  uri_malformed : exn;
}.

Record XClient : Type := mkClient {
  oauth : OAuthOptions;
  token : KeyPair;
  bearerToken : option string;
}.

(** Characters [encodeURIComponent] leaves as they are: letters, digits
    and [- _ . ! ~ * ' ( )]. *)
Definition component_safe (b : N) : bool :=
  (((48 <=? b) && (b <=? 57)) || ((65 <=? b) && (b <=? 90)) || ((97 <=? b) && (b <=? 122))
   || (b =? 45) || (b =? 95) || (b =? 46) || (b =? 33) || (b =? 126) || (b =? 42)
   || (b =? 39) || (b =? 40) || (b =? 41))%N.

Definition encode_component_byte (b : N) : string :=
  if component_safe b then String (ascii_of_N b) EmptyString else URL.percent b.

(** [encodeURIComponent] on a string of code units below 256, where it
    always returns. *)
Fixpoint encodeURIComponent (s : string) : string :=
  match s with
  | EmptyString => EmptyString
  | String c r =>
      String.concat EmptyString (map encode_component_byte (URL.utf8 c))
        +:+ encodeURIComponent r
  end.

(** [encodeURIComponent] on any string, given by its UTF-16 code units
    (numbers below 2^16): the string is read code point by code point, a surrogate that is not
    half of a pair raises the [URIError] ([None] here), and every other
    code point gives the escapes of its UTF-8 bytes. *)
Definition high_surrogate (u : N) : bool := ((55296 <=? u) && (u <=? 56319))%N.
Definition low_surrogate (u : N) : bool := ((56320 <=? u) && (u <=? 57343))%N.

Definition utf8_bytes (cp : N) : list N :=
  (if cp <? 128 then [cp]
   else if cp <? 2048 then [192 + cp / 64; 128 + cp mod 64]
   else if cp <? 65536 then [224 + cp / 4096; 128 + (cp / 64) mod 64; 128 + cp mod 64]
   else [240 + cp / 262144; 128 + (cp / 4096) mod 64; 128 + (cp / 64) mod 64;
         128 + cp mod 64])%N.

Definition encode_code_point (cp : N) : string :=
  String.concat EmptyString (map encode_component_byte (utf8_bytes cp)).

Fixpoint encodeURIComponent_units (s : list N) : option string :=
  match s with
  | [] => Some EmptyString
  | u :: r =>
      if low_surrogate u then None
      else if high_surrogate u then
        match r with
        | v :: r' =>
            if low_surrogate v
            then String.app (encode_code_point (65536 + (u - 55296) * 1024 + (v - 56320))%N)
                   <$> encodeURIComponent_units r'
            else None
        | [] => None
        end
      else String.app (encode_code_point u) <$> encodeURIComponent_units r
  end.

(** The code units of a string of the other kind. *)
Definition units (s : string) : list N := code <$> list_ascii_of_string s.

(** The address of the search, from the encoded query. *)
Definition search_url (encoded : string) (maxResults : option Z) : string :=
  BASE_URL +:+ "/tweets/search/recent?query=" +:+ encoded
    +:+ "&max_results=" +:+ pretty (default 10 maxResults)
    +:+ "&tweet.fields=created_at,public_metrics,author_id,text".

Definition searchRecent_url (query : string) (maxResults : option Z) : string :=
  search_url (encodeURIComponent query) maxResults.

Definition bearer_headers (tok : string) : list (string * string) :=
  [("Authorization", "Bearer " +:+ tok); ("Content-Type", "application/json")].

Section Bearer.
Context `{Builtins} `{OAuthLibrary} `{Outside} `{BuiltinErrors}.

Definition new_XClient (credentials : XCredentials) : XClient :=
  match credentials with
  | mkCredentials apiKey apiSecret accessToken accessTokenSecret bearer =>
      {| oauth := {| consumer := {| key := apiKey; secret := apiSecret |};
                     signature_method := "HMAC-SHA1";
                     hash_function := fun baseString key => hmac_sha1_base64 key baseString |};
         token := {| key := accessToken; secret := accessTokenSecret |};
         bearerToken := bearer |}
  end.

(** [res.json()] followed by the test of [res.ok], as both [request] and
    [bearerRequest] of this revision have it. *)
Definition read_json (res : Response) : completion JSON :=
  match JSON_parse (text res) with
  | None => Throw (json_syntax_error (text res))
  | Some data =>
      if negb (ok res) then
        let detail :=
          coalesce (opt_get (Some data) "detail")
            (coalesce (opt_get (Some data) "title")
               (Some (JString (JSON_stringify data)))) in
        Throw (api_error (status res) (to_string detail))
      else Return data
  end.

(** The callers pass [GET] only. *)
Definition bearerRequest (c : XClient) (method : RequestMethod) (url : string)
    (w : World) : completion JSON * World :=
  if negb (truthy_str (bearerToken c))
  then (Throw (Error "Bearer token required for this endpoint. Set X_BEARER_TOKEN."), w)
  else
    let req := {| req_url := url;
                  req_method := method;
                  req_headers := bearer_headers (default EmptyString (bearerToken c));
                  req_body := None |} in
    let '(r, w1) := fetch req w in
    (r ≫= read_json, w1).

(** [(res as any).data ?? []] *)
Definition data_or_empty (res : JSON) : completion JSON :=
  d ← member (Some res) "data";
  Return (default (JArray []) (coalesce d (Some (JArray [])))).

(** The query is encoded first, before the token is looked at. *)
Definition searchRecent (c : XClient) (query : list N) (maxResults : option Z)
    (w : World) : completion JSON * World :=
  match encodeURIComponent_units query with
  | None => (Throw uri_malformed, w)
  | Some encoded =>
      and_then (bearerRequest c GET (search_url encoded maxResults) w) data_or_empty
  end.

(** *** Vocabulary for the statement about the search *)

(** A string in which every surrogate is half of a pair. *)
Fixpoint well_formed (s : list N) : bool :=
  match s with
  | [] => true
  | u :: r =>
      if high_surrogate u then
        match r with
        | v :: r' => low_surrogate v && well_formed r'
        | [] => false
        end
      else negb (low_surrogate u) && well_formed r
  end.

(** What the search makes of the outcome [r] of its one [fetch]: a
    network error is passed on; a body that is not JSON is an error
    whatever the status; an error status gives the API error with the
    detail of the body; and a success gives the [data] member of the
    body when there is one that is not [null], and the empty list
    otherwise, but the body [null] has no members to read. *)
Definition search_outcome (r : completion Response) (result : completion JSON) : Prop :=
  (∀ e, r = Throw e → result = Throw e)
  ∧ (∀ res, r = Return res → JSON_parse (text res) = None →
       result = Throw (json_syntax_error (text res)))
  ∧ (∀ res body, r = Return res → JSON_parse (text res) = Some body → ok res = false →
       result = Throw (api_error (status res) (error_detail_spec res)))
  ∧ (∀ res, r = Return res → JSON_parse (text res) = Some JNull → ok res = true →
       ∃ m, result = Throw (TypeError m))
  ∧ (∀ res body, r = Return res → JSON_parse (text res) = Some body → ok res = true →
       body ≠ JNull →
       result = Return (default (JArray []) (field_of body "data"))).

Lemma encode_well_formed (query : list N) :
  is_Some (encodeURIComponent_units query) ↔ well_formed query = true.
Proof.
  remember (length query) as n eqn:Hn. revert query Hn.
  induction (lt_wf n) as [n _ IH]. intros [|u r] ->; [cbn; split; eauto|].
  change (encodeURIComponent_units (u :: r))
    with (if low_surrogate u then None
          else if high_surrogate u then
            match r with
            | v :: r' =>
                if low_surrogate v
                then String.app
                       (encode_code_point (65536 + (u - 55296) * 1024 + (v - 56320))%N)
                       <$> encodeURIComponent_units r'
                else None
            | [] => None
            end
          else String.app (encode_code_point u) <$> encodeURIComponent_units r).
  change (well_formed (u :: r))
    with (if high_surrogate u then
            match r with
            | v :: r' => low_surrogate v && well_formed r'
            | [] => false
            end
          else negb (low_surrogate u) && well_formed r).
  assert (Hno : ∀ A, is_Some (@None A) ↔ false = true)
    by (intros A; split; [by intros [? [=]] | done]).
  destruct (high_surrogate u) eqn:Hh.
  - assert (low_surrogate u = false) as ->.
    { unfold high_surrogate, low_surrogate in *.
      apply andb_true_iff in Hh as [_ Hh%N.leb_le].
      apply andb_false_iff. left. apply N.leb_gt. lia. }
    destruct r as [|v r]; [apply Hno|].
    destruct (low_surrogate v); cbn [andb]; [|apply Hno].
    rewrite fmap_is_Some. apply (IH (length r)); [cbn; lia | done].
  - destruct (low_surrogate u); cbn [negb andb]; [apply Hno|].
    rewrite fmap_is_Some. apply (IH (length r)); [cbn; lia | done].
Qed.

Lemma read_json_parsed (res : Response) (body : JSON) :
  JSON_parse (text res) = Some body → read_json res = parseResponse res.
Proof. intros Hp. unfold read_json, parseResponse. by rewrite Hp. Qed.

Lemma read_json_outcome (r : completion Response) :
  search_outcome r ((r ≫= read_json) ≫= data_or_empty).
Proof.
  unfold search_outcome. repeat apply conj.
  - by intros e ->.
  - intros res -> Hp.
    change ((Return res ≫= read_json) ≫= data_or_empty)
      with (read_json res ≫= data_or_empty).
    unfold read_json. by rewrite Hp.
  - intros res body -> Hp Hok.
    change ((Return res ≫= read_json) ≫= data_or_empty)
      with (read_json res ≫= data_or_empty).
    by rewrite (read_json_parsed res body Hp), (parseResponse_not_ok res Hok).
  - intros res -> Hp Hok.
    change ((Return res ≫= read_json) ≫= data_or_empty)
      with (read_json res ≫= data_or_empty).
    rewrite (read_json_parsed res JNull Hp), (parseResponse_ok res Hok), Hp.
    by eexists.
  - intros res body -> Hp Hok Hnull.
    change ((Return res ≫= read_json) ≫= data_or_empty)
      with (read_json res ≫= data_or_empty).
    rewrite (read_json_parsed res body Hp), (parseResponse_ok res Hok), Hp.
    destruct body as [| | | | |ms]; try done.
    cbn. destruct (assoc "data" ms) as [[]|]; reflexivity.
Qed.

(** X19. In the earlier revision the recent search encodes the query
    first: a query with a surrogate that is not half of a pair raises the
    [URIError] and nothing else happens. Otherwise the search needs the
    bearer token: without one, or with an empty one, it raises the error
    that asks for it and touches neither the network nor the nonce source;
    with one it sends exactly one [GET] request, without a body, that
    carries the token as [Bearer] authorization and no OAuth signature,
    it never waits or retries, and its result is the [data] member of the
    answer or the empty list, or the error of the answer. *)
Theorem searchRecent_needs_bearer (c : XClient) (query : list N) (maxResults : option Z)
    (w : World) :
  (well_formed query = false →
   searchRecent c query maxResults w = (Throw uri_malformed, w))
  ∧ (well_formed query = true → truthy_str (bearerToken c) = false →
     searchRecent c query maxResults w
     = (Throw (Error "Bearer token required for this endpoint. Set X_BEARER_TOKEN."), w))
  ∧ (well_formed query = true →
     ∀ tok, bearerToken c = Some tok → tok ≠ EmptyString →
       ∃ encoded req,
         encodeURIComponent_units query = Some encoded
         ∧ req = {| req_url := search_url encoded maxResults;
                    req_method := GET;
                    req_headers := bearer_headers tok;
                    req_body := None |}
         ∧ (searchRecent c query maxResults w).2
           = {| clock := clock w; entropy := entropy w;
                trace := trace w ++ [Fetched req (remote (trace w) (clock w) req)] |}
         ∧ search_outcome (remote (trace w) (clock w) req)
             (searchRecent c query maxResults w).1).
Proof.
  pose proof (encode_well_formed query) as Hwf.
  unfold searchRecent.
  destruct (encodeURIComponent_units query) as [encoded|].
  - assert (well_formed query = true) as Hq by (apply Hwf; eauto).
    split; [congruence|]. unfold bearerRequest, and_then. split.
    + by intros _ ->.
    + intros _ tok -> Hne. destruct tok as [|a t]; [done|].
      cbn [truthy_str negb default from_option id fetch fst snd].
      eexists _, _. split; [done|]. split; [done|]. split; [done|].
      apply read_json_outcome.
  - assert (well_formed query ≠ true) as Hq by (intros Hq; apply Hwf in Hq as [? [=]]).
    split; [done|]. split; intros; congruence.
Qed.

End Bearer.

Lemma utf8_bytes_unit (c : ascii) :
  utf8_bytes (code c) = URL.utf8 c
  ∧ low_surrogate (code c) = false ∧ high_surrogate (code c) = false.
Proof. destruct c as [[] [] [] [] [] [] [] []]; by vm_compute. Qed.

(** On the code units of a string that holds none above 255, the encoding
    always returns, and returns what the encoding of that string is. *)
Lemma encodeURIComponent_units_string (s : string) :
  encodeURIComponent_units (units s) = Some (encodeURIComponent s).
Proof.
  induction s as [|c s IH]; [done|].
  change (units (String c s)) with (code c :: units s).
  change (encodeURIComponent_units (code c :: units s))
    with (if low_surrogate (code c) then None
          else if high_surrogate (code c) then
            match units s with
            | v :: r' =>
                if low_surrogate v
                then String.app
                       (encode_code_point (65536 + (code c - 55296) * 1024 + (v - 56320))%N)
                       <$> encodeURIComponent_units r'
                else None
            | [] => None
            end
          else String.app (encode_code_point (code c)) <$> encodeURIComponent_units (units s)).
  destruct (utf8_bytes_unit c) as (Hb & -> & ->).
  rewrite IH. unfold encode_code_point. by rewrite Hb.
Qed.

(** The characters of an encoded component: the ones left as they are and
    the ones of an escape. The digits and the sign of a number are among
    them. *)
Definition component_char (c : ascii) : bool :=
  component_safe (code c) || Ascii.eqb c "%".

Lemma encode_component_char (c : ascii) :
  all_chars component_char
    (String.concat EmptyString (map encode_component_byte (URL.utf8 c))) = true.
Proof. destruct c as [[] [] [] [] [] [] [] []]; by vm_compute. Qed.

Lemma encodeURIComponent_chars (s : string) :
  all_chars component_char (encodeURIComponent s) = true.
Proof.
  induction s as [|c s IH]; [done|].
  cbn [encodeURIComponent]. by rewrite all_chars_app, encode_component_char, IH.
Qed.

Lemma pretty_N_go_chars (x : N) (s : string) :
  all_chars component_char s = true →
  all_chars component_char (pretty_N_go x s) = true.
Proof.
  revert s. induction (N.lt_wf_0 x) as [x _ IH]. intros s Hs.
  destruct (decide (0 < x)%N) as [Hx|Hx].
  - rewrite pretty_N_go_step by done. apply IH.
    + apply N.div_lt; lia.
    + cbn [all_chars]. rewrite Hs, andb_true_r.
      assert (x `mod` 10 < 10)%N as Hm by (apply N.mod_lt; lia).
      generalize dependent (x `mod` 10)%N. intros d Hd.
      assert (d = 0 ∨ d = 1 ∨ d = 2 ∨ d = 3 ∨ d = 4 ∨ d = 5 ∨ d = 6 ∨ d = 7 ∨ d = 8 ∨ d = 9)%N
        as Hcases by lia.
      repeat (destruct Hcases as [->|Hcases]; [by vm_compute|]). rewrite Hcases. by vm_compute.
  - assert (x = 0%N) as -> by lia. by rewrite pretty_N_go_0.
Qed.

Lemma pretty_Z_chars (z : Z) : all_chars component_char (pretty z) = true.
Proof.
  assert (∀ n : N, all_chars component_char (pretty n) = true) as HN.
  { intros n. unfold pretty, pretty_N. destruct (decide (n = 0%N)); [done|].
    by apply pretty_N_go_chars. }
  destruct z as [|q|q]; [done | apply HN |].
  change (pretty (Z.neg q)) with ("-" +:+ pretty (N.pos q)).
  rewrite all_chars_app, HN. done.
Qed.

Lemma count_excluded (p : ascii → bool) (c : ascii) (s : string) :
  p c = false → all_chars p s = true → count_char c s = 0%nat.
Proof.
  intros Hc. induction s as [|x s IH]; [done|].
  cbn [all_chars count_char]. intros [Hx Hs]%andb_true_iff.
  rewrite IH by done.
  destruct (Ascii.eqb_spec x c) as [->|]; [congruence | done].
Qed.

(** X20. In the earlier revision too the address of a recent search keeps
    its shape whatever the query and the page size are: one [?], the three
    parameters with their two separators, and no fragment. *)
Theorem searchRecent_url_shape (query : string) (maxResults : option Z) :
  count_char "?" (searchRecent_url query maxResults) = 1%nat
  ∧ count_char "=" (searchRecent_url query maxResults) = 3%nat
  ∧ count_char "&" (searchRecent_url query maxResults) = 2%nat
  ∧ count_char "#" (searchRecent_url query maxResults) = 0%nat.
Proof.
  unfold searchRecent_url, search_url.
  pose proof (encodeURIComponent_chars query) as Hq.
  pose proof (pretty_Z_chars (default 10 maxResults)) as Hm.
  generalize dependent (pretty (default 10 maxResults)). intros m Hm.
  generalize dependent (encodeURIComponent query). intros q Hq.
  rewrite !count_char_app.
  rewrite !(count_excluded component_char _ q), !(count_excluded component_char _ m) by done.
  by vm_compute.
Qed.

End Legacy.

(** ** The further properties on the scripted server and hosts *)

Module Scenarios.

#[local] Existing Instance Demo.builtins.
#[local] Existing Instance Demo.oauth_library.
#[local] Existing Instance Demo.outside.
#[local] Existing Instance Demo.node_path.

(** A throttled response whose reset is one second ahead. *)
Definition throttled : Response :=
  {| status := 429; headers := [("x-rate-limit-reset", "1700000001")];
     text := "Too Many Requests" |}.

Lemma backoff_reaches_reset_witness :
  Z.max (clock Demo.world) (reset_instant_spec 1700000001)
    <= clock (backoff Demo.client throttled 0 Demo.world)
  ∧ getRateLimitWaitMs (Some "1700000001") (clock (backoff Demo.client throttled 0 Demo.world))
    = 0.
Proof.
  refine (proj1 (proj1 (backoff_reaches_reset Demo.client throttled 0 Demo.world) _)
            "1700000001" 1700000001 eq_refl eq_refl _).
  - intros t now ms. cbn. lia.
  - vm_compute. discriminate.
Defined.

Lemma wait_for_decimal_header_witness :
  getRateLimitWaitMs (Some "1700000001") 1700000000000 = 1000.
Proof.
  refine (eq_trans (proj1 (wait_for_decimal_header 1700000001 1700000000000 _ _)) eq_refl);
    unfold MAX_EXACT_INTEGER, MAX_TIME_VALUE; lia.
Defined.

Definition tweet_204 : string := BASE_URL +:+ "/tweets/204".

Lemma request_single_attempt_witness :
  request Demo.client DELETE tweet_204 None 0 Demo.world
  = (Demo.json 204 EmptyString ≫= parseResponse,
     (send Demo.client DELETE tweet_204 None Demo.world).2)
  ∧ ∃ req, trace (send Demo.client DELETE tweet_204 None Demo.world).2
           = trace Demo.world ++ [Fetched req (Demo.json 204 EmptyString)].
Proof.
  apply (request_single_attempt Demo.client DELETE tweet_204 None 0 Demo.world).
  - reflexivity.
  - intros res Hres. injection Hres as <-. discriminate.
Defined.

Lemma request_returns_from_success_witness :
  ∃ new req res,
    trace (request Demo.client GET (BASE_URL +:+ "/users/me?" +:+ user_fields) None 0
             Demo.world).2 = trace Demo.world ++ new
    ∧ last new = Some (Fetched req (Return res))
    ∧ ok res = true
    ∧ status res ≠ 429%N
    ∧ JObject [("data", JObject [("id", JString "1")])]
      = default (JObject []) (JSON_parse (text res)).
Proof.
  apply (request_returns_from_success Demo.client GET
           (BASE_URL +:+ "/users/me?" +:+ user_fields) None Demo.world).
  vm_compute. reflexivity.
Defined.

Lemma methods_on_empty_success_witness :
  (deletePost Demo.client "204" Demo.world).1 = Return false.
Proof.
  refine (proj1 (methods_on_empty_success Demo.client Demo.world
                   (send Demo.client DELETE tweet_204 None Demo.world).2
                   {| status := 204; headers := []; text := EmptyString |}
                   "204" "hello" "jack" "7" "9" "7" "8" "foo" None None None
                   eq_refl eq_refl) _).
  reflexivity.
Defined.

Lemma loadCredentials_twice_witness :
  loadCredentials {| env := env_after (loadCredentials Demo.host_with_file);
                     files := files Demo.host_with_file |}
  = loadCredentials Demo.host_with_file.
Proof. apply loadCredentials_twice. reflexivity. Defined.

(** An environment that sets one credential, beside a config file (mode
    0o100600) that gives the other three. *)
Definition host_complete : Host :=
  {| env := <["HOME" := "/home/u"]> (<["TWITTER_API_KEY" := "key"]> ∅);
     files := λ p,
       if String.eqb p "/home/u/.config/twx-cli/.env"
       then Some {| mode := Some 33152%N;
                    content := Return ("X_API_SECRET=s3" +:+ newline
                                         +:+ "X_ACCESS_TOKEN = tok  # token" +:+ newline
                                         +:+ "X_ACCESS_TOKEN_SECRET=ts") |}
       else None |}.

Definition loaded_complete : XCredentials :=
  {| apiKey := "key"; apiSecret := "s3"; accessToken := "tok"; accessTokenSecret := "ts";
     bearerToken := None |}.

Lemma loadCredentials_returns_nonempty_witness :
  apiKey loaded_complete ≠ EmptyString ∧ apiSecret loaded_complete ≠ EmptyString
  ∧ accessToken loaded_complete ≠ EmptyString
  ∧ accessTokenSecret loaded_complete ≠ EmptyString.
Proof.
  refine (proj1 (loadCredentials_returns_nonempty host_complete loaded_complete _)).
  vm_compute. reflexivity.
Defined.

Lemma comment_and_blank_lines_skipped_witness :
  merge_line ∅ "  " = ∅ ∧ merge_line ∅ ("  " +:+ "# keys") = ∅.
Proof. apply (comment_and_blank_lines_skipped ∅ "  " " keys"). reflexivity. Defined.

Lemma plain_assignment_line_witness :
  merge_line ∅ ("X_API_KEY" +:+ "=" +:+ "abc")
  = if blank ∅ "X_API_KEY" then <["X_API_KEY" := "abc"]> ∅ else ∅.
Proof.
  apply (plain_assignment_line ∅ "X_API_KEY" "abc"); [reflexivity | discriminate | reflexivity].
Defined.

#[local] Instance builtin_errors : Legacy.BuiltinErrors := {|
  Legacy.json_syntax_error := λ body, Error ("Unexpected token in JSON: " +:+ body);
  Legacy.uri_malformed := Error "URI malformed";
|}.

Definition legacy_client (bearer : option string) : Legacy.XClient :=
  Legacy.new_XClient
    {| apiKey := "ck"; apiSecret := "cs"; accessToken := "tk"; accessTokenSecret := "ts";
       bearerToken := bearer |}.

(** The code units of a query with a high surrogate that nothing follows. *)
Definition lone_surrogate : list N := [99; 97; 116; 55357]%N.

Lemma searchRecent_needs_bearer_witness :
  Legacy.searchRecent (legacy_client (Some "B")) lone_surrogate None Demo.world
    = (Throw (Error "URI malformed"), Demo.world)
  ∧ Legacy.searchRecent (legacy_client (Some EmptyString)) (Legacy.units "cats") None Demo.world
    = (Throw (Error "Bearer token required for this endpoint. Set X_BEARER_TOKEN."),
       Demo.world).
Proof.
  split.
  - exact (proj1 (Legacy.searchRecent_needs_bearer (legacy_client (Some "B")) lone_surrogate
                    None Demo.world) eq_refl).
  - exact (proj1 (proj2 (Legacy.searchRecent_needs_bearer (legacy_client (Some EmptyString))
                           (Legacy.units "cats") None Demo.world)) eq_refl eq_refl).
Defined.

End Scenarios.
